(** * LUT-accelerated binary search over 32-bit PODs (src/main.cpp)

    A shallow embedding of [MapValue] and of the class [SearchPod32]
    (construction with [InitLut], and the three search entry points
    [StdBinarySearch], [MyBinarySearch] and [LutBinarySearch]), followed by
    the properties of the specification that were checked against it.

    Conventions of the embedding:
    - a machine integer is a [Z]; every conversion between integer types
      that the C++ performs is written out ([to_uint32], [to_int32],
      [to_size_t], [to_ssize_t]); [size_t] and [ssize_t] are 64 bits wide;
    - a [std::vector] is a [list]; reading or writing outside of it is
      undefined behaviour in C++ and is the fault [OutOfBounds] here;
    - a [float] is its IEEE-754 binary32 bit pattern, compared through
      [SFcompare] of the standard library's [SpecFloat]. *)

From Stdlib Require Import ZArith Lia Bool List.
From Stdlib Require Import Floats.SpecFloat.
From stdpp Require Import base list.

Local Open Scope Z_scope.

(** ** Machine integers *)

Module Int.

Definition wrap (w x : Z) : Z := x mod 2 ^ w.

Definition swrap (w x : Z) : Z := (x + 2 ^ (w - 1)) mod 2 ^ w - 2 ^ (w - 1).

Definition to_uint32 : Z -> Z := wrap 32.
Definition to_int32 : Z -> Z := swrap 32.
Definition to_size_t : Z -> Z := wrap 64.
Definition to_ssize_t : Z -> Z := swrap 64.

Definition is_uint32 (x : Z) : bool := (0 <=? x) && (x <? 2 ^ 32).
Definition is_int32 (x : Z) : bool := (- 2 ^ 31 <=? x) && (x <? 2 ^ 31).

(** [PTRDIFF_MAX], and [std::vector<E>::max_size()] for elements of
    [bytes] bytes. *)
Definition PTRDIFF_MAX : Z := 2 ^ 63 - 1.
Definition max_size (bytes : Z) : Z := PTRDIFF_MAX / bytes.

End Int.

(** ** The [float] type: IEEE-754 binary32

    A [float] is represented by its bit pattern [cv] (what the source reads
    with [(uint32_t &)val]): bit 31 is the sign, bits 30..23 the biased
    exponent, bits 22..0 the fraction.  [of_bits] gives the number it
    denotes, and the C++ operators [<] and [==] on [float] are the IEEE
    comparisons [SFltb] and [SFeqb] on the denoted numbers. *)

Module Float32.

Definition sign (cv : Z) : bool := 2 ^ 31 <=? cv.
Definition biased_exp (cv : Z) : Z := (cv / 2 ^ 23) mod 2 ^ 8.
Definition fraction (cv : Z) : Z := cv mod 2 ^ 23.

Definition of_bits (cv : Z) : spec_float :=
  let s := sign cv in
  let e := biased_exp cv in
  let m := fraction cv in
  if e =? 0 then
    if m =? 0 then S754_zero s else S754_finite s (Z.to_pos m) (-149)
  else if e =? 255 then
    if m =? 0 then S754_infinity s else S754_nan
  else S754_finite s (Z.to_pos (m + 2 ^ 23)) (e - 150).

Definition is_nan (cv : Z) : bool :=
  (biased_exp cv =? 255) && negb (fraction cv =? 0).

Definition ltb (a b : Z) : bool := SFltb (of_bits a) (of_bits b).
Definition eqb (a b : Z) : bool := SFeqb (of_bits a) (of_bits b).

(** Sign-magnitude reading of a bit pattern: the integer that orders
    non-NaN floats the way IEEE does (both zeros are 0). *)
Definition magnitude (cv : Z) : Z := cv mod 2 ^ 31.
Definition ord (cv : Z) : Z := if sign cv then - magnitude cv else magnitude cv.

End Float32.

(** ** The supported element types and [MapValue]

    [SearchPod32<T, LUT_BITS>] is instantiated at [uint32_t], [int32_t]
    and [float]; any other [T] is rejected by the [static_assert] of the
    primary template of [MapValue].  A value of [T] is a [Z]: the number
    itself for the two integer types, the bit pattern for [float]. *)

Inductive Pod32 : Set := T_uint32 | T_int32 | T_float.

(** The values of type [T]. *)
Definition in_domain (T : Pod32) (v : Z) : bool :=
  match T with
  | T_uint32 => Int.is_uint32 v
  | T_int32 => Int.is_int32 v
  | T_float => Int.is_uint32 v
  end.

(** [a < b] and [a == b] at type [T] ([std::less<T>] and
    [std::equal_to<T>]). *)
Definition less (T : Pod32) (a b : Z) : bool :=
  match T with
  | T_uint32 | T_int32 => a <? b
  | T_float => Float32.ltb a b
  end.

Definition equal_to (T : Pod32) (a b : Z) : bool :=
  match T with
  | T_uint32 | T_int32 => a =? b
  | T_float => Float32.eqb a b
  end.

(** The three specialisations of [MapValue] (main.cpp, lines 24-42). *)
Definition MapValue (T : Pod32) (val : Z) : Z :=
  match T with
  | T_uint32 => val
  | T_int32 => Z.lxor (Int.to_uint32 val) 0x80000000
  | T_float =>
      let cv := val in
      let mask :=
        Z.lor (Int.to_uint32 (Int.to_int32 (- Int.to_int32 (Z.shiftr cv 31))))
              0x80000000 in
      Z.lxor cv mask
  end.

(** ** Outcomes of a call

    A call either returns, or it leaves the defined behaviour of C++:
    [OutOfBounds] is an access [v[i]] with [i >= v.size()] (undefined
    behaviour of [std::vector::operator[]]), [LengthError] the exception
    [std::length_error] of [std::vector::resize], [StaticAssert] an
    instantiation that the compiler rejects.  [OutOfFuel] belongs to the
    embedding only: the [while] loop of [BinarySearch] is run with a bound
    on its iterations, which is shown never to be reached. *)

Inductive fault : Set := OutOfBounds | LengthError | StaticAssert | OutOfFuel.

Inductive outcome (A : Type) : Type :=
  | Ok (a : A)
  | Fault (f : fault).

Arguments Ok {A} a.
Arguments Fault {A} f.

Definition bind {A B : Type} (m : outcome A) (k : A -> outcome B) : outcome B :=
  match m with
  | Ok a => k a
  | Fault f => Fault f
  end.

Notation "x <- m ;; k" := (bind m (fun x => k))
  (at level 100, m at next level, right associativity).

(** ** [std::vector] *)

Module Vec.

Definition size {A} (v : list A) : Z := Z.of_nat (length v).

(** [v[i]] as an rvalue. *)
Definition get {A} (v : list A) (i : Z) : outcome A :=
  if (0 <=? i) && (i <? size v) then
    match v !! Z.to_nat i with
    | Some x => Ok x
    | None => Fault OutOfBounds
    end
  else Fault OutOfBounds.

(** [v[i] = x]. *)
Definition set {A} (v : list A) (i : Z) (x : A) : outcome (list A) :=
  if (0 <=? i) && (i <? size v) then Ok (<[Z.to_nat i := x]> v)
  else Fault OutOfBounds.

(** [v.resize(n)] on an empty [std::vector<size_t>]: [n] value-initialised
    elements, or [std::length_error] when [n] exceeds [max_size()].  (That
    the allocation itself succeeds is assumed.) *)
Definition resize (n : Z) : outcome (list Z) :=
  if n <=? Int.max_size 8 then Ok (replicate (Z.to_nat n) 0)
  else Fault LengthError.

End Vec.

(** ** The class [SearchPod32<T, LUT_BITS>] *)

Record SearchPod32 : Type := {
  Lut : list Z;      (* std::vector<size_t> *)
  Vals : list Z;     (* const std::vector<T> & *)
  LutEnd : Z;        (* size_t *)
}.

(** The local variables of [InitLut] that live across its first loop. *)
Record InitLutState : Type := {
  st_Lut : list Z;
  st_thresh : Z;
  st_last : Z;
}.

Section SearchPod32.

Variable T : Pod32.
Variable LUT_BITS : Z.

(** [mappedKey >> (32-LUT_BITS)]: the LUT entry a value maps to. *)
Definition lutIndex (val : Z) : Z := Z.shiftr (MapValue T val) (32 - LUT_BITS).

(** [for (size_t j = from; j < from + n; j++) Lut[j] = last;] *)
Fixpoint fill (n : nat) (j last : Z) (lut : list Z) : outcome (list Z) :=
  match n with
  | O => Ok lut
  | S n' => lut' <- Vec.set lut j last ;; fill n' (j + 1) last lut'
  end.

(** The same loop between two bounds: [for (j = from; j < to; j++)]. *)
Definition fill_range (from to last : Z) (lut : list Z) : outcome (list Z) :=
  fill (Z.to_nat (to - from)) from last lut.

(** Body of the first loop of [InitLut] (lines 134-145), at index [i]. *)
Definition InitLut_body (vals : list Z) (i : Z) (st : InitLutState)
  : outcome InitLutState :=
  nextVal <- Vec.get vals (Int.to_size_t (i + 1)) ;;
  let mappedNextVal := MapValue T nextVal in
  let nextThresh := Z.shiftr mappedNextVal (32 - LUT_BITS) in
  lut1 <- Vec.set (st_Lut st) (st_thresh st) (st_last st) ;;
  if nextThresh >? st_thresh st then
    let last := Int.to_size_t (i + 1) in
    (* for (size_t j=thresh+1; j<=nextThresh; j++) Lut[j] = last; *)
    lut2 <- fill_range (st_thresh st + 1) (nextThresh + 1) last lut1 ;;
    Ok {| st_Lut := lut2; st_thresh := nextThresh; st_last := last |}
  else
    Ok {| st_Lut := lut1; st_thresh := nextThresh; st_last := st_last st |}.

(** [for (ssize_t i = ...; i < (ssize_t)Vals.size()-1; i++)], with [n]
    iterations left. *)
Fixpoint InitLut_for (n : nat) (vals : list Z) (i : Z) (st : InitLutState)
  : outcome InitLutState :=
  match n with
  | O => Ok st
  | S n' => st' <- InitLut_body vals i st ;; InitLut_for n' vals (i + 1) st'
  end.

(** [InitLut] (lines 124-161).  [1<<LUT_BITS] is a shift of the [int] 1:
    its result and the sum with 1 are [int]s, converted to [size_t] for
    [resize]. *)
Definition InitLut (vals : list Z) : outcome SearchPod32 :=
  lut0 <- Vec.resize
            (Int.to_size_t (Int.to_int32 (Int.to_int32 (Z.shiftl 1 LUT_BITS) + 1))) ;;
  st <- InitLut_for (Z.to_nat (Int.to_ssize_t (Vec.size vals) - 1)) vals 0
          {| st_Lut := lut0; st_thresh := 0; st_last := 0 |} ;;
  lut <- fill_range (st_thresh st) (Int.to_size_t (Vec.size (st_Lut st) - 1))
           (st_last st) (st_Lut st) ;;
  Ok {| Lut := lut; Vals := vals; LutEnd := st_thresh st |}.

(** The constructor (lines 48-53). *)
Definition construct (vals : list Z) : outcome SearchPod32 :=
  if (LUT_BITS >? 0) && (LUT_BITS <? 32) then InitLut vals
  else Fault StaticAssert.

(** The [while (__len > 0)] loop of [BinarySearch] (lines 85-99). *)
Fixpoint BinarySearch_while (fuel : nat) (vals : list Z) (key len first : Z)
  : outcome Z :=
  match fuel with
  | O => Fault OutOfFuel
  | S fuel' =>
      if len >? 0 then
        let half := Z.shiftr len 1 in
        let middle := Int.to_size_t (first + half) in
        v <- Vec.get vals middle ;;
        if less T v key then
          BinarySearch_while fuel' vals key
            (Int.to_size_t (Int.to_size_t (len - half) - 1))
            (Int.to_size_t (middle + 1))
        else
          BinarySearch_while fuel' vals key half first
      else Ok first
  end.

(** [BinarySearch] (lines 80-122).  The function returns [__first] at
    line 101; the statements after it (the assertion [left == right] and
    [return (Vals[left] == key ? left : -1)]) are never executed and have
    no counterpart here.  A [size_t] length is halved to 0 in at most 64
    iterations, hence the bound of 65 (see [BinarySearch_while_fuel]). *)
Definition BinarySearch (vals : list Z) (left right key : Z) : outcome Z :=
  let len := Int.to_size_t (Int.to_ssize_t (right - left)) in
  let first := Int.to_size_t left in
  first' <- BinarySearch_while 65 vals key len first ;;
  Ok (Int.to_ssize_t first').

(** [MyBinarySearch] (lines 61-64). *)
Definition MyBinarySearch (s : SearchPod32) (key : Z) : outcome Z :=
  BinarySearch (Vals s) 0 (Int.to_ssize_t (Vec.size (Vals s)) - 1) key.

(** The interval end computed at line 75 for LUT entry [lutIdx]. *)
Definition LutIntervalEnd (s : SearchPod32) (lutIdx : Z) : outcome Z :=
  if Int.to_uint32 (lutIdx + 1) >=? LutEnd s then
    Ok (Int.to_size_t (Vec.size (Vals s) - 1))
  else
    next <- Vec.get (Lut s) (Int.to_uint32 (lutIdx + 1)) ;;
    Ok (Int.to_size_t (next - 1)).

(** [LutBinarySearch] (lines 66-77). *)
Definition LutBinarySearch (s : SearchPod32) (key : Z) : outcome Z :=
  let mappedKey := MapValue T key in
  let lutIdx := Z.shiftr mappedKey (32 - LUT_BITS) in
  start <- Vec.get (Lut s) lutIdx ;;
  end_ <- LutIntervalEnd s lutIdx ;;
  BinarySearch (Vals s) (Int.to_ssize_t start) (Int.to_ssize_t end_) key.

(** [std::lower_bound(Vals.begin(), Vals.end(), key)], by its contract:
    the first position whose element is not less than [key], in a range
    partitioned by [_ < key]. *)
Fixpoint lower_bound (vals : list Z) (key : Z) : nat :=
  match vals with
  | [] => O
  | v :: vals' => if less T v key then S (lower_bound vals' key) else O
  end.

(** [StdBinarySearch] (lines 55-59). *)
Definition StdBinarySearch (s : SearchPod32) (key : Z) : outcome Z :=
  let iter := lower_bound (Vals s) key in
  match Vals s !! iter with
  | Some v => if equal_to T v key then Ok (Z.of_nat iter) else Ok (-1)
  | None => Ok (-1)
  end.

End SearchPod32.

(** ** Notions of the specification *)

(** The backing array holds values of [T], and no more of them than a
    [std::vector<T>] (4-byte elements) can. *)
Definition well_formed (T : Pod32) (vals : list Z) : Prop :=
  Forall (fun v => in_domain T v = true) vals /\
  Vec.size vals <= Int.max_size 4.

(** Ascending order, as [std::sort] leaves an array: no element is less
    than one before it. *)
Fixpoint sorted_from (T : Pod32) (a : Z) (vals : list Z) : bool :=
  match vals with
  | [] => true
  | b :: vals' => negb (less T b a) && sorted_from T a vals'
  end.

Fixpoint sortedb (T : Pod32) (vals : list Z) : bool :=
  match vals with
  | [] => true
  | a :: vals' => sorted_from T a vals' && sortedb T vals'
  end.

Definition sorted (T : Pod32) (vals : list Z) : Prop := sortedb T vals = true.

(** [key] occurs in the array (under [==]). *)
Definition occurs (T : Pod32) (vals : list Z) (key : Z) : bool :=
  existsb (fun v => equal_to T v key) vals.

(** The not-found sentinel. *)
Definition not_found : Z := -1.

(** Index of the first element whose mapped key's top [LUT_BITS] bits are
    at least [i] (the length of the array if there is none). *)
Fixpoint first_at_or_after (T : Pod32) (LUT_BITS : Z) (vals : list Z) (i : Z) : Z :=
  match vals with
  | [] => 0
  | v :: vals' =>
      if lutIndex T LUT_BITS v >=? i then 0
      else 1 + first_at_or_after T LUT_BITS vals' i
  end.

(** The interval end as the specification words it (section 4.3, step 4):
    [end = (bucket + 1 > lastAssignedBucket) ? N - 1 : table[bucket + 1] - 1],
    to be compared with [LutIntervalEnd]. *)
Definition specified_interval_end (s : SearchPod32) (bucket : Z) : outcome Z :=
  if bucket + 1 >? LutEnd s then Ok (Int.to_size_t (Vec.size (Vals s) - 1))
  else
    next <- Vec.get (Lut s) (bucket + 1) ;;
    Ok (Int.to_size_t (next - 1)).

(** The range of the search is partitioned by [_ < key]. *)
Definition partitioned (T : Pod32) (vals : list Z) (key : Z) : Prop :=
  forall i j a b, i <= j ->
    Vec.get vals i = Ok a -> Vec.get vals j = Ok b ->
    less T b key = true -> less T a key = true.

(** [rank] maps a value to an integer that orders the values of [T] as
    [<] and [==] do.  For [float] this needs the value not to be a NaN;
    [comparable] says so. *)
Definition rank (T : Pod32) (v : Z) : Z :=
  match T with
  | T_float => Float32.ord v
  | _ => v
  end.

Definition comparable (T : Pod32) (v : Z) : bool :=
  in_domain T v &&
  match T with
  | T_float => negb (Float32.is_nan v)
  | _ => true
  end.

Definition all_comparable (T : Pod32) (vals : list Z) : Prop :=
  Forall (fun v => comparable T v = true) vals.

(** [MapValue] orders the values as [rank] does, except that it tells the
    two [float] zeros apart, which [<] and [==] do not.  [canonical]
    excludes NaN and the negative zero. *)
Definition canonical (T : Pod32) (v : Z) : bool :=
  comparable T v &&
  match T with
  | T_float => negb (v =? 0x80000000)
  | _ => true
  end.

Definition all_canonical (T : Pod32) (vals : list Z) : Prop :=
  Forall (fun v => canonical T v = true) vals.

(** ** Invariants of [InitLut] *)

(** Invariant of the first loop of [InitLut], at the head of iteration
    [i].  It needs no order on the array. *)
Record loop_inv (LUT_BITS : Z) (st : InitLutState) (i : Z) : Prop := {
  inv_size : Vec.size (st_Lut st) = 2 ^ LUT_BITS + 1;
  inv_thresh : 0 <= st_thresh st < 2 ^ LUT_BITS;
  inv_last : 0 <= st_last st <= i;
  inv_last_pos : 1 <= st_thresh st -> 1 <= st_last st;
  inv_entries : forall k x,
    Vec.get (st_Lut st) k = Ok x -> 0 <= x <= st_last st;
  inv_mono : forall a b x y,
    a <= b <= st_thresh st ->
    Vec.get (st_Lut st) a = Ok x -> Vec.get (st_Lut st) b = Ok y -> x <= y;
  inv_pos : forall k x,
    1 <= k <= st_thresh st -> Vec.get (st_Lut st) k = Ok x -> 1 <= x;
  inv_trailing : Vec.get (st_Lut st) (2 ^ LUT_BITS) = Ok 0;
}.

(** What [InitLut] establishes.  [lut_mono] is over the [2^LUT_BITS]
    entries that a mapped key can select; the additional last element of
    the table is not written and keeps the 0 of [resize]. *)
Record Lut_inv (LUT_BITS : Z) (vals : list Z) (s : SearchPod32) : Prop := {
  lut_Vals : Vals s = vals;
  lut_size : Vec.size (Lut s) = 2 ^ LUT_BITS + 1;
  lut_LutEnd : 0 <= LutEnd s < 2 ^ LUT_BITS;
  lut_entries : forall k x,
    Vec.get (Lut s) k = Ok x -> 0 <= x <= Z.max 0 (Vec.size vals - 1);
  lut_mono : forall a b x y,
    a <= b < 2 ^ LUT_BITS ->
    Vec.get (Lut s) a = Ok x -> Vec.get (Lut s) b = Ok y -> x <= y;
  lut_pos : forall k x,
    1 <= k <= LutEnd s -> Vec.get (Lut s) k = Ok x -> 1 <= x;
  lut_trailing : Vec.get (Lut s) (2 ^ LUT_BITS) = Ok 0;
}.

(** [x] is the first index from 1 on whose element has a bucket [>= j]. *)
Definition first_from_1 (T : Pod32) (LUT_BITS : Z) (vals : list Z) (x j : Z)
  : Prop :=
  1 <= x /\
  (exists a, Vec.get vals x = Ok a /\ j <= lutIndex T LUT_BITS a) /\
  (forall k a, 1 <= k < x -> Vec.get vals k = Ok a -> lutIndex T LUT_BITS a < j).

(** Invariant of the first loop of [InitLut] over an array whose buckets
    do not decrease. *)
Record sorted_inv (T : Pod32) (LUT_BITS : Z) (vals : list Z)
    (st : InitLutState) (i : Z) : Prop := {
  sinv_hi : forall k a,
    1 <= k <= i -> Vec.get vals k = Ok a -> lutIndex T LUT_BITS a <= st_thresh st;
  sinv_zero : st_thresh st = 0 -> st_last st = 0;
  sinv_last :
    1 <= st_thresh st -> first_from_1 T LUT_BITS vals (st_last st) (st_thresh st);
  sinv_lut : forall j x,
    1 <= j <= st_thresh st -> Vec.get (st_Lut st) j = Ok x ->
    first_from_1 T LUT_BITS vals x j;
  sinv_lut0 : Vec.get (st_Lut st) 0 = Ok 0;
}.

(** What [InitLut] establishes over an array whose buckets do not
    decrease. *)
Record Lut_sorted_inv (T : Pod32) (LUT_BITS : Z) (vals : list Z)
    (s : SearchPod32) : Prop := {
  lut_zero : Vec.get (Lut s) 0 = Ok 0;
  lut_first : forall j x,
    1 <= j <= LutEnd s -> Vec.get (Lut s) j = Ok x ->
    first_from_1 T LUT_BITS vals x j;
  lut_LutEnd_hi : forall k a,
    1 <= k -> Vec.get vals k = Ok a -> lutIndex T LUT_BITS a <= LutEnd s;
}.

(** ** The driver

    [BenchmarkAlgo] (lines 169-193) runs one search entry point over all
    the keys, asserts of every returned index that it holds the key, and
    adds the indices up; the sum is what it prints as [Result].  The clock
    and the console are left out.  [assert] is a no-op when the program is
    built with [NDEBUG]; when it is not, a failed assertion aborts. *)

Inductive bench (A : Type) : Type :=
  | Result (a : A)
  | Aborted
  | Undefined (f : fault).

Arguments Result {A} a.
Arguments Aborted {A}.
Arguments Undefined {A} f.

Section Driver.

Variable NDEBUG : bool.
Variable T : Pod32.

(** [assert(vals[idx] == keys[i])] (line 180), [idx] being an [ssize_t]
    that indexes a vector. *)
Definition assert_found (vals : list Z) (idx key : Z) : bench unit :=
  if NDEBUG then Result tt
  else
    match Vec.get vals (Int.to_size_t idx) with
    | Fault f => Undefined f
    | Ok v => if equal_to T v key then Result tt else Aborted
    end.

(** The loop of lines 177-182 over the keys that are left, [res] being
    the [size_t] sum so far. *)
Fixpoint BenchmarkAlgo_for (algoFunc : SearchPod32 -> Z -> outcome Z)
    (vals : list Z) (s : SearchPod32) (keys : list Z) (res : Z) : bench Z :=
  match keys with
  | [] => Result res
  | key :: keys' =>
      match algoFunc s key with
      | Fault f => Undefined f
      | Ok idx =>
          match assert_found vals idx key with
          | Result _ =>
              BenchmarkAlgo_for algoFunc vals s keys'
                (Int.to_size_t (res + Int.to_size_t idx))
          | Aborted => Aborted
          | Undefined f => Undefined f
          end
      end
  end.

(** [BenchmarkAlgo]: the value of [res] that is printed. *)
Definition BenchmarkAlgo (vals keys : list Z)
    (algoFunc : SearchPod32 -> Z -> outcome Z) (s : SearchPod32) : bench Z :=
  BenchmarkAlgo_for algoFunc vals s keys 0.


End Driver.

(** The sum of the lower bounds of the keys, as [BenchmarkAlgo]
    accumulates it in a [size_t]. *)
Fixpoint lower_bound_sum (T : Pod32) (vals keys : list Z) (res : Z) : Z :=
  match keys with
  | [] => res
  | key :: keys' =>
      lower_bound_sum T vals keys'
        (Int.to_size_t (res + Z.of_nat (lower_bound T vals key)))
  end.

(** * Facts about the machine integers *)

Module IntFacts.
Import Int.

Lemma to_uint32_range x : 0 <= to_uint32 x < 2 ^ 32.
Proof. unfold to_uint32, wrap. apply Z.mod_pos_bound. lia. Qed.

Lemma to_size_t_range x : 0 <= to_size_t x < 2 ^ 64.
Proof. unfold to_size_t, wrap. apply Z.mod_pos_bound. lia. Qed.

Lemma to_size_t_small x : 0 <= x < 2 ^ 64 -> to_size_t x = x.
Proof. intros H. unfold to_size_t, wrap. now apply Z.mod_small. Qed.

Lemma to_uint32_small x : 0 <= x < 2 ^ 32 -> to_uint32 x = x.
Proof. intros H. unfold to_uint32, wrap. now apply Z.mod_small. Qed.

Lemma to_ssize_t_small x : - 2 ^ 63 <= x < 2 ^ 63 -> to_ssize_t x = x.
Proof.
  intros H. unfold to_ssize_t, swrap. change (64 - 1) with 63.
  rewrite Z.mod_small; lia.
Qed.

Lemma to_size_t_ssize_t x : to_size_t (to_ssize_t x) = to_size_t x.
Proof.
  unfold to_size_t, to_ssize_t, swrap, wrap. change (64 - 1) with 63.
  rewrite Zminus_mod_idemp_l. f_equal. lia.
Qed.

Lemma to_size_t_sub_ssize a b :
  to_size_t (to_ssize_t a - to_ssize_t b) = to_size_t (a - b).
Proof.
  unfold to_size_t, to_ssize_t, swrap, wrap. change (64 - 1) with 63.
  rewrite Zminus_mod.
  rewrite (Zminus_mod_idemp_l (a + 2 ^ 63)), (Zminus_mod_idemp_l (b + 2 ^ 63)).
  rewrite <- Zminus_mod. f_equal. lia.
Qed.

(** Flipping bit 31 of a 32-bit pattern. *)
Lemma lxor_sign_low x : 0 <= x < 2 ^ 31 -> Z.lxor x (2 ^ 31) = x + 2 ^ 31.
Proof.
  intros H. symmetry. apply Z.add_nocarry_lxor.
  apply Z.bits_inj'. intros n Hn.
  rewrite Z.land_spec, Z.bits_0, Z.pow2_bits_eqb by lia.
  destruct (Z.eqb_spec 31 n) as [<-|]; [|apply andb_false_r].
  rewrite andb_true_r.
  destruct (Z.eq_dec x 0) as [->|]; [apply Z.bits_0|].
  apply Z.bits_above_log2; [lia|]. apply Z.log2_lt_pow2; lia.
Qed.

Lemma lxor_sign_high x : 2 ^ 31 <= x < 2 ^ 32 -> Z.lxor x (2 ^ 31) = x - 2 ^ 31.
Proof.
  intros H.
  replace x with (Z.lxor (x - 2 ^ 31) (2 ^ 31)) at 1
    by (rewrite lxor_sign_low; lia).
  rewrite Z.lxor_assoc, Z.lxor_nilpotent, Z.lxor_0_r. reflexivity.
Qed.

(** Flipping all 32 bits of a 32-bit pattern. *)
Lemma lxor_all_ones x : 0 <= x < 2 ^ 32 -> Z.lxor x (2 ^ 32 - 1) = 2 ^ 32 - 1 - x.
Proof.
  intros H.
  transitivity (Z.land (Z.lnot x) (Z.ones 32)).
  - apply Z.bits_inj'. intros n Hn.
    change (2 ^ 32 - 1) with (Z.ones 32).
    rewrite Z.lxor_spec, Z.land_spec, Z.lnot_spec by lia.
    destruct (Z.ltb_spec n 32).
    + rewrite Z.ones_spec_low by lia. now rewrite xorb_true_r, andb_true_r.
    + rewrite Z.ones_spec_high by lia.
      rewrite andb_false_r, xorb_false_r.
      destruct (Z.eq_dec x 0) as [->|]; [apply Z.bits_0|].
      apply Z.bits_above_log2; [lia|].
      apply Z.lt_le_trans with 32; [apply Z.log2_lt_pow2; lia|lia].
  - rewrite Z.land_ones by lia. unfold Z.lnot.
    symmetry. apply Z.mod_unique with (-1); lia.
Qed.

End IntFacts.

(** * Facts about the comparison of floats *)

Module Float32Facts.
Import Float32.

Lemma of_bits_cases cv :
  0 <= cv < 2 ^ 32 ->
  (magnitude cv = 0 /\ of_bits cv = S754_zero (sign cv)) \/
  (magnitude cv = 255 * 2 ^ 23 /\ of_bits cv = S754_infinity (sign cv)) \/
  (255 * 2 ^ 23 < magnitude cv /\ of_bits cv = S754_nan) \/
  (exists p e,
      of_bits cv = S754_finite (sign cv) p e /\
      magnitude cv = (e + 149) * 2 ^ 23 + Z.pos p /\
      -149 <= e <= 104 /\ Z.pos p < 2 ^ 24 /\
      (-149 < e -> 2 ^ 23 <= Z.pos p) /\
      0 < magnitude cv < 255 * 2 ^ 23).
Proof.
  intros Hcv. unfold of_bits, magnitude.
  assert (He : biased_exp cv = (cv mod 2 ^ 31) / 2 ^ 23).
  { unfold biased_exp. Z.div_mod_to_equations. lia. }
  assert (Hm : fraction cv = (cv mod 2 ^ 31) mod 2 ^ 23).
  { unfold fraction. Z.div_mod_to_equations. lia. }
  rewrite He, Hm. set (g := cv mod 2 ^ 31).
  assert (Hg : 0 <= g < 2 ^ 31) by (apply Z.mod_pos_bound; lia).
  assert (Hdm : g = 2 ^ 23 * (g / 2 ^ 23) + g mod 2 ^ 23)
    by (apply Z.div_mod; lia).
  assert (Hr : 0 <= g mod 2 ^ 23 < 2 ^ 23) by (apply Z.mod_pos_bound; lia).
  assert (Hq : 0 <= g / 2 ^ 23 < 256) by (Z.div_mod_to_equations; lia).
  destruct (Z.eqb_spec (g / 2 ^ 23) 0) as [E0|E0].
  - destruct (Z.eqb_spec (g mod 2 ^ 23) 0) as [M0|M0].
    + left. split; [lia|reflexivity].
    + right; right; right. exists (Z.to_pos (g mod 2 ^ 23)), (-149).
      rewrite Z2Pos.id by lia. repeat split; lia.
  - destruct (Z.eqb_spec (g / 2 ^ 23) 255) as [E1|E1].
    + destruct (Z.eqb_spec (g mod 2 ^ 23) 0) as [M0|M0].
      * right; left. split; [lia|reflexivity].
      * right; right; left. split; [lia|reflexivity].
    + right; right; right.
      exists (Z.to_pos (g mod 2 ^ 23 + 2 ^ 23)), (g / 2 ^ 23 - 150).
      rewrite Z2Pos.id by lia. repeat split; lia.
Qed.

Lemma is_nan_magnitude cv :
  0 <= cv < 2 ^ 32 -> is_nan cv = (255 * 2 ^ 23 <? magnitude cv).
Proof.
  intros Hcv. unfold is_nan, magnitude.
  assert (He : biased_exp cv = (cv mod 2 ^ 31) / 2 ^ 23).
  { unfold biased_exp. Z.div_mod_to_equations. lia. }
  assert (Hm : fraction cv = (cv mod 2 ^ 31) mod 2 ^ 23).
  { unfold fraction. Z.div_mod_to_equations. lia. }
  rewrite He, Hm. set (g := cv mod 2 ^ 31).
  assert (Hg : 0 <= g < 2 ^ 31) by (apply Z.mod_pos_bound; lia).
  destruct (Z.eqb_spec (g / 2 ^ 23) 255), (Z.eqb_spec (g mod 2 ^ 23) 0),
    (Z.ltb_spec (255 * 2 ^ 23) g); simpl; try reflexivity;
    exfalso; Z.div_mod_to_equations; lia.
Qed.

(** IEEE comparison of two non-NaN floats is the comparison of their
    sign-magnitude readings. *)
Lemma compare_of_bits a b :
  0 <= a < 2 ^ 32 -> 0 <= b < 2 ^ 32 ->
  is_nan a = false -> is_nan b = false ->
  SFcompare (of_bits a) (of_bits b) = Some (ord a ?= ord b).
Proof.
  intros Ha Hb Na Nb.
  rewrite is_nan_magnitude in Na, Nb by assumption.
  apply Z.ltb_ge in Na, Nb.
  assert (Ga : 0 <= magnitude a) by (apply Z.mod_pos_bound; lia).
  assert (Gb : 0 <= magnitude b) by (apply Z.mod_pos_bound; lia).
  unfold ord.
  destruct (of_bits_cases a Ha)
    as [[Ma ->]|[[Ma ->]|[[Ma _]|(p & e & -> & Ma & Ea & Pa & Qa & Ra)]]];
    [| | lia |];
    (destruct (of_bits_cases b Hb)
       as [[Mb ->]|[[Mb ->]|[[Mb _]|(q & f & -> & Mb & Eb & Pb & Qb & Rb)]]];
     [| | lia |]);
    destruct (sign a), (sign b); cbn [SFcompare]; f_equal; symmetry;
    try (first [apply Z.compare_eq_iff | apply Z.compare_lt_iff | apply Z.compare_gt_iff]; lia).
  all: change (Pos.compare_cont Eq p q) with (Z.pos p ?= Z.pos q).
  all: destruct (Z.compare_spec e f), (Z.compare_spec (Z.pos p) (Z.pos q)); cbn [CompOpp];
    first [apply Z.compare_eq_iff | apply Z.compare_lt_iff | apply Z.compare_gt_iff]; lia.
Qed.

Lemma ltb_ord a b :
  0 <= a < 2 ^ 32 -> 0 <= b < 2 ^ 32 ->
  is_nan a = false -> is_nan b = false ->
  ltb a b = (ord a <? ord b).
Proof.
  intros. unfold ltb, SFltb, Z.ltb. rewrite compare_of_bits by assumption.
  reflexivity.
Qed.

Lemma eqb_ord a b :
  0 <= a < 2 ^ 32 -> 0 <= b < 2 ^ 32 ->
  is_nan a = false -> is_nan b = false ->
  eqb a b = (ord a =? ord b).
Proof.
  intros. unfold eqb, SFeqb. rewrite compare_of_bits, Z.eqb_compare by assumption.
  reflexivity.
Qed.

(** A comparison involving a NaN is false. *)
Lemma ltb_nan a b :
  0 <= a < 2 ^ 32 -> 0 <= b < 2 ^ 32 ->
  ltb a b = true -> is_nan a = false /\ is_nan b = false.
Proof.
  intros Ha Hb. unfold ltb, SFltb.
  rewrite !is_nan_magnitude by assumption.
  destruct (of_bits_cases a Ha) as [[Ma ->]|[[Ma ->]|[[Ma ->]|(p & e & -> & Ma & Ra)]]];
    destruct (of_bits_cases b Hb) as [[Mb ->]|[[Mb ->]|[[Mb ->]|(q & f & -> & Mb & Rb)]]];
    cbn [SFcompare]; try discriminate; intros _; split; apply Z.ltb_ge; lia.
Qed.

End Float32Facts.

(** * [MapValue] *)

Lemma in_domain_uint32 v : in_domain T_uint32 v = true <-> 0 <= v < 2 ^ 32.
Proof. cbn. unfold Int.is_uint32. lia. Qed.

Lemma in_domain_int32 v : in_domain T_int32 v = true <-> - 2 ^ 31 <= v < 2 ^ 31.
Proof. cbn. unfold Int.is_int32. lia. Qed.

Lemma in_domain_float v : in_domain T_float v = true <-> 0 <= v < 2 ^ 32.
Proof. cbn. unfold Int.is_uint32. lia. Qed.

Lemma MapValue_int32 v :
  - 2 ^ 31 <= v < 2 ^ 31 -> MapValue T_int32 v = v + 2 ^ 31.
Proof.
  intros H. cbn [MapValue]. change 0x80000000 with (2 ^ 31).
  unfold Int.to_uint32, Int.wrap.
  destruct (Z.lt_ge_cases v 0).
  - replace (v mod 2 ^ 32) with (v + 2 ^ 32)
      by (apply Z.mod_unique with (-1); lia).
    rewrite IntFacts.lxor_sign_high; lia.
  - rewrite Z.mod_small by lia. apply IntFacts.lxor_sign_low. lia.
Qed.

Lemma MapValue_float_positive cv :
  0 <= cv < 2 ^ 31 -> MapValue T_float cv = cv + 2 ^ 31.
Proof.
  intros H. cbn [MapValue].
  rewrite Z.shiftr_div_pow2, Z.div_small by lia.
  change (Z.lor _ _) with (2 ^ 31). apply IntFacts.lxor_sign_low. lia.
Qed.

Lemma MapValue_float_negative cv :
  2 ^ 31 <= cv < 2 ^ 32 -> MapValue T_float cv = 2 ^ 32 - 1 - cv.
Proof.
  intros H. cbn [MapValue].
  rewrite Z.shiftr_div_pow2 by lia.
  replace (cv / 2 ^ 31) with 1 by (Z.div_mod_to_equations; lia).
  change (Z.lor _ _) with (2 ^ 32 - 1). apply IntFacts.lxor_all_ones. lia.
Qed.

(** In terms of the sign-magnitude reading: the non-negative floats are
    shifted above [2^31], the negative ones mirrored below it. *)
Lemma MapValue_float_ord cv :
  0 <= cv < 2 ^ 32 ->
  MapValue T_float cv =
    if Float32.sign cv then 2 ^ 31 - 1 + Float32.ord cv
    else 2 ^ 31 + Float32.ord cv.
Proof.
  intros H. unfold Float32.ord, Float32.magnitude, Float32.sign.
  destruct (Z.leb_spec (2 ^ 31) cv).
  - rewrite MapValue_float_negative by lia.
    replace (cv mod 2 ^ 31) with (cv - 2 ^ 31)
      by (apply Z.mod_unique with 1; lia).
    lia.
  - rewrite MapValue_float_positive, Z.mod_small by lia. lia.
Qed.

Lemma MapValue_range T v :
  in_domain T v = true -> 0 <= MapValue T v < 2 ^ 32.
Proof.
  destruct T; intros H.
  - now apply in_domain_uint32.
  - apply in_domain_int32 in H. rewrite MapValue_int32; lia.
  - apply in_domain_float in H.
    destruct (Z.lt_ge_cases v (2 ^ 31)).
    + rewrite MapValue_float_positive; lia.
    + rewrite MapValue_float_negative; lia.
Qed.

(** In terms of [lutIndex]: the mapped keys of values of [T] select one of
    the [2^LUT_BITS] entries. *)
Lemma lutIndex_range T LUT_BITS v :
  1 <= LUT_BITS <= 31 -> in_domain T v = true ->
  0 <= lutIndex T LUT_BITS v < 2 ^ LUT_BITS.
Proof.
  intros HB Hv. unfold lutIndex. apply MapValue_range in Hv.
  rewrite Z.shiftr_div_pow2 by lia.
  assert (Hp : 0 < 2 ^ (32 - LUT_BITS)) by (apply Z.pow_pos_nonneg; lia).
  split; [apply Z.div_pos; lia|].
  apply Z.div_lt_upper_bound; [lia|].
  rewrite <- Z.pow_add_r by lia.
  replace (32 - LUT_BITS + LUT_BITS) with 32 by lia. lia.
Qed.

(** The mapping preserves the order of the domain. *)
Lemma MapValue_lt T a b :
  in_domain T a = true -> in_domain T b = true ->
  less T a b = true -> MapValue T a < MapValue T b.
Proof.
  destruct T; intros Ha Hb Hlt.
  - now apply Z.ltb_lt.
  - apply in_domain_int32 in Ha, Hb. apply Z.ltb_lt in Hlt.
    rewrite !MapValue_int32 by assumption. lia.
  - apply in_domain_float in Ha, Hb. cbn [less] in Hlt.
    destruct (Float32Facts.ltb_nan a b Ha Hb Hlt) as [Na Nb].
    rewrite Float32Facts.ltb_ord in Hlt by assumption.
    apply Z.ltb_lt in Hlt.
    rewrite !MapValue_float_ord by assumption.
    assert (Ga : 0 <= Float32.magnitude a) by (apply Z.mod_pos_bound; lia).
    assert (Gb : 0 <= Float32.magnitude b) by (apply Z.mod_pos_bound; lia).
    unfold Float32.ord in *.
    destruct (Float32.sign a), (Float32.sign b); lia.
Qed.

(** * Vectors *)

Section VecFacts.

Context {A : Type}.
Implicit Types (v : list A) (i k : Z) (x : A).

Lemma get_Ok v i x :
  Vec.get v i = Ok x <-> 0 <= i < Vec.size v /\ v !! Z.to_nat i = Some x.
Proof.
  unfold Vec.get, Vec.size.
  destruct (Z.leb_spec 0 i), (Z.ltb_spec i (Z.of_nat (length v))); cbn;
    try (split; [discriminate|lia]).
  destruct (v !! Z.to_nat i) eqn:E.
  - split; [intros [= ->]; auto with lia|intros [_ [= ->]]; reflexivity].
  - split; [discriminate|intros [_ [=]]].
Qed.

Lemma get_in_range v i :
  0 <= i < Vec.size v -> exists x, Vec.get v i = Ok x.
Proof.
  intros H. unfold Vec.size in H.
  destruct (lookup_lt_is_Some_2 v (Z.to_nat i)) as [x Hx]; [lia|].
  exists x. apply get_Ok. unfold Vec.size. auto.
Qed.

Lemma get_out_of_range v i :
  ~ 0 <= i < Vec.size v -> Vec.get v i = Fault OutOfBounds.
Proof.
  intros H. unfold Vec.get.
  destruct (Z.leb_spec 0 i), (Z.ltb_spec i (Vec.size v)); cbn; try reflexivity.
  lia.
Qed.

Lemma get_Fault v i f : Vec.get v i = Fault f -> f = OutOfBounds.
Proof.
  unfold Vec.get. destruct (_ && _); [destruct (_ !! _)|]; congruence.
Qed.

Lemma get_bounds v i x : Vec.get v i = Ok x -> 0 <= i < Vec.size v.
Proof. intros H. now apply get_Ok in H. Qed.

Lemma set_Ok v i x :
  0 <= i < Vec.size v ->
  exists v', Vec.set v i x = Ok v' /\ Vec.size v' = Vec.size v /\
    forall k, Vec.get v' k = if k =? i then Ok x else Vec.get v k.
Proof.
  intros H. exists (<[Z.to_nat i := x]> v). unfold Vec.set.
  destruct (Z.leb_spec 0 i), (Z.ltb_spec i (Vec.size v)); try lia. cbn.
  split; [reflexivity|]. unfold Vec.size in *.
  split; [now rewrite length_insert|].
  intros k. unfold Vec.get, Vec.size. rewrite length_insert.
  destruct (Z.eqb_spec k i) as [->|Hne].
  - destruct (Z.leb_spec 0 i), (Z.ltb_spec i (Z.of_nat (length v))); try lia. cbn.
    rewrite list_lookup_insert_eq by lia. reflexivity.
  - destruct (Z.leb_spec 0 k), (Z.ltb_spec k (Z.of_nat (length v))); cbn;
      try reflexivity.
    rewrite list_lookup_insert_ne by lia. reflexivity.
Qed.

End VecFacts.

Lemma resize_Ok n :
  0 <= n <= Int.max_size 8 ->
  exists v, Vec.resize n = Ok v /\ Vec.size v = n /\
    forall k, 0 <= k < n -> Vec.get v k = Ok 0.
Proof.
  intros H. exists (replicate (Z.to_nat n) 0). unfold Vec.resize.
  destruct (Z.leb_spec n (Int.max_size 8)); [|lia].
  split; [reflexivity|].
  assert (Hs : Vec.size (replicate (Z.to_nat n) 0) = n).
  { unfold Vec.size. rewrite length_replicate. lia. }
  split; [assumption|].
  intros k Hk. apply get_Ok. rewrite Hs. split; [assumption|].
  apply lookup_replicate_2. lia.
Qed.

(** * The loops of [InitLut] *)

Lemma fill_Ok n j last (lut : list Z) :
  0 <= j -> j + Z.of_nat n <= Vec.size lut ->
  exists lut', fill n j last lut = Ok lut' /\ Vec.size lut' = Vec.size lut /\
    forall k, Vec.get lut' k =
      if (j <=? k) && (k <? j + Z.of_nat n) then Ok last else Vec.get lut k.
Proof.
  revert j lut. induction n as [|n IH]; intros j lut Hj Hn.
  - exists lut. repeat split. intros k.
    destruct (Z.leb_spec j k), (Z.ltb_spec k (j + Z.of_nat 0)); cbn; try reflexivity.
    lia.
  - cbn [fill].
    destruct (set_Ok lut j last) as (lut1 & -> & Hs1 & Hg1); [lia|]. cbn [bind].
    destruct (IH (j + 1) lut1) as (lut2 & -> & Hs2 & Hg2); [lia|lia|].
    exists lut2. split; [reflexivity|]. split; [congruence|].
    intros k. rewrite Hg2, Hg1.
    destruct (Z.eqb_spec k j), (Z.leb_spec (j + 1) k), (Z.leb_spec j k),
      (Z.ltb_spec k (j + 1 + Z.of_nat n)), (Z.ltb_spec k (j + Z.of_nat (S n)));
      cbn; try reflexivity; lia.
Qed.

Lemma fill_range_Ok from to last (lut : list Z) :
  0 <= from -> to <= Vec.size lut ->
  exists lut', fill_range from to last lut = Ok lut' /\
    Vec.size lut' = Vec.size lut /\
    forall k, Vec.get lut' k =
      if (from <=? k) && (k <? to) then Ok last else Vec.get lut k.
Proof.
  intros Hf Ht. unfold fill_range.
  destruct (Z.le_gt_cases to from) as [Hle|Hgt].
  - replace (Z.to_nat (to - from)) with O by lia.
    exists lut. repeat split. intros k.
    destruct (Z.leb_spec from k), (Z.ltb_spec k to); cbn; try reflexivity. lia.
  - destruct (fill_Ok (Z.to_nat (to - from)) from last lut) as (lut' & E & Hs & Hg);
      [lia|lia|].
    exists lut'. split; [assumption|]. split; [assumption|].
    intros k. rewrite Hg.
    destruct (Z.leb_spec from k), (Z.ltb_spec k to),
      (Z.ltb_spec k (from + Z.of_nat (Z.to_nat (to - from))));
      cbn; try reflexivity; lia.
Qed.

(** Case analysis on the integer comparisons of a goal. *)
Ltac zcases :=
  repeat match goal with
    | H : context [?a =? ?b] |- _ => destruct (Z.eqb_spec a b)
    | H : context [?a <=? ?b] |- _ => destruct (Z.leb_spec a b)
    | H : context [?a <? ?b] |- _ => destruct (Z.ltb_spec a b)
    | |- context [?a =? ?b] => destruct (Z.eqb_spec a b)
    | |- context [?a <=? ?b] => destruct (Z.leb_spec a b)
    | |- context [?a <? ?b] => destruct (Z.ltb_spec a b)
    end;
  cbn [andb orb negb] in *.

Lemma to_int32_small x : - 2 ^ 31 <= x < 2 ^ 31 -> Int.to_int32 x = x.
Proof.
  intros H. unfold Int.to_int32, Int.swrap. change (32 - 1) with 31.
  rewrite Z.mod_small; lia.
Qed.

Lemma max_size_8 : Int.max_size 8 = 2 ^ 60 - 1.
Proof. reflexivity. Qed.

Lemma max_size_4 : Int.max_size 4 = 2 ^ 61 - 1.
Proof. reflexivity. Qed.

(** The size requested from [resize]. *)
Lemma Lut_size LUT_BITS :
  1 <= LUT_BITS <= 30 ->
  Int.to_size_t (Int.to_int32 (Int.to_int32 (Z.shiftl 1 LUT_BITS) + 1))
  = 2 ^ LUT_BITS + 1.
Proof.
  intros H. rewrite Z.shiftl_1_l.
  assert (2 ^ 1 <= 2 ^ LUT_BITS <= 2 ^ 30)
    by (split; apply Z.pow_le_mono_r; lia).
  rewrite (to_int32_small (2 ^ LUT_BITS)) by lia.
  rewrite to_int32_small by lia. apply IntFacts.to_size_t_small. lia.
Qed.

(** At [LUT_BITS = 31] the shift yields [INT_MIN], and the requested size
    is beyond [max_size()]. *)
Lemma Lut_size_31 :
  Int.to_size_t (Int.to_int32 (Int.to_int32 (Z.shiftl 1 31) + 1))
  = 2 ^ 64 - 2 ^ 31 + 1.
Proof. reflexivity. Qed.

(** Closes a case of the preservation proof from the invariant of the
    previous state. *)
Ltac use_inv :=
  repeat match goal with
    | H : Ok _ = Ok _ |- _ => injection H as <-
    end;
  repeat match goal with
    | Hen : forall k x, Vec.get ?l k = Ok x -> 0 <= x <= _,
      H : Vec.get ?l ?k = Ok ?x |- _ =>
        lazymatch goal with
        | _ : 0 <= x <= _ |- _ => fail
        | _ => pose proof (Hen k x H)
        end
    end;
  try lia;
  match goal with
  | Hmo : forall a b x y, a <= b <= _ -> Vec.get ?l a = Ok x -> Vec.get ?l b = Ok y -> x <= y,
    Ha : Vec.get ?l ?a = Ok ?x, Hb : Vec.get ?l ?b = Ok ?y |- ?x <= ?y =>
      apply (Hmo a b x y); [lia|assumption|assumption]
  | Hpo : forall k x, 1 <= k <= _ -> Vec.get ?l k = Ok x -> 1 <= x,
    H : Vec.get ?l ?k = Ok ?x |- 1 <= ?x =>
      apply (Hpo k x); [lia|assumption]
  end.

Section InitLutFacts.

Variable T : Pod32.
Variable LUT_BITS : Z.
Variable vals : list Z.

Hypothesis LUT_BITS_range : 1 <= LUT_BITS <= 30.
Hypothesis vals_wf : well_formed T vals.

Lemma vals_get_domain i v : Vec.get vals i = Ok v -> in_domain T v = true.
Proof.
  intros H. apply get_Ok in H as [_ H].
  destruct vals_wf as [Hd _]. rewrite Forall_lookup in Hd. eauto.
Qed.

Lemma vals_size_bound : 0 <= Vec.size vals < 2 ^ 61.
Proof.
  destruct vals_wf as [_ H]. rewrite max_size_4 in H.
  unfold Vec.size in *. lia.
Qed.

Lemma InitLut_body_Ok i st :
  0 <= i -> i + 1 < Vec.size vals -> loop_inv LUT_BITS st i ->
  exists st', InitLut_body T LUT_BITS vals i st = Ok st' /\ loop_inv LUT_BITS st' (i + 1).
Proof.
  intros Hi Hn [Hsz Hth Hla Hlp Hen Hmo Hpo Htr].
  pose proof vals_size_bound as Hb.
  unfold InitLut_body. rewrite IntFacts.to_size_t_small by lia.
  destruct (get_in_range vals (i + 1)) as [v Hv]; [lia|]. rewrite Hv. cbn [bind].
  pose proof (lutIndex_range T LUT_BITS v ltac:(lia) (vals_get_domain _ _ Hv)) as Hnt.
  unfold lutIndex in Hnt.
  set (nextThresh := Z.shiftr (MapValue T v) (32 - LUT_BITS)) in *.
  destruct (set_Ok (st_Lut st) (st_thresh st) (st_last st)) as (lut1 & -> & Hs1 & Hg1);
    [lia|]. cbn [bind].
  rewrite Z.gtb_ltb. destruct (Z.ltb_spec (st_thresh st) nextThresh) as [Hup|Hdown].
  - destruct (fill_range_Ok (st_thresh st + 1) (nextThresh + 1) (i + 1) lut1)
      as (lut2 & -> & Hs2 & Hg2); [lia|lia|]. cbn [bind].
    eexists. split; [reflexivity|].
    constructor; cbn [st_Lut st_thresh st_last]; try lia.
    + intros k x. rewrite Hg2, Hg1. intros Hk. zcases; use_inv.
    + intros a b x y Hab. rewrite !Hg2, !Hg1. intros Ha Hb'. zcases; use_inv.
    + intros k x Hk. rewrite Hg2, Hg1. intros Hx. zcases; use_inv.
    + rewrite Hg2, Hg1. zcases; try lia. assumption.
  - eexists. split; [reflexivity|].
    constructor; cbn [st_Lut st_thresh st_last]; try lia.
    + intros k x. rewrite Hg1. intros Hk. zcases; use_inv.
    + intros a b x y Hab. rewrite !Hg1. intros Ha Hb'. zcases; use_inv.
    + intros k x Hk. rewrite Hg1. intros Hx. zcases; use_inv.
    + rewrite Hg1. zcases; try lia. assumption.
Qed.

Lemma InitLut_for_Ok n i st :
  0 <= i -> i + Z.of_nat n + 1 <= Vec.size vals \/ n = O -> loop_inv LUT_BITS st i ->
  exists st', InitLut_for T LUT_BITS n vals i st = Ok st' /\
    loop_inv LUT_BITS st' (i + Z.of_nat n).
Proof.
  revert i st. induction n as [|n IH]; intros i st Hi Hn Hinv.
  - exists st. split; [reflexivity|]. now replace (i + Z.of_nat 0) with i by lia.
  - cbn [InitLut_for].
    destruct (InitLut_body_Ok i st) as (st1 & -> & Hinv1); [lia|lia|assumption|].
    cbn [bind].
    destruct (IH (i + 1) st1) as (st2 & -> & Hinv2); [lia|lia|assumption|].
    exists st2. split; [reflexivity|].
    now replace (i + Z.of_nat (S n)) with (i + 1 + Z.of_nat n) by lia.
Qed.

Lemma InitLut_Ok : exists s, InitLut T LUT_BITS vals = Ok s /\ Lut_inv LUT_BITS vals s.
Proof.
  pose proof vals_size_bound as Hb.
  assert (Hpow : 2 ^ 1 <= 2 ^ LUT_BITS <= 2 ^ 30)
    by (split; apply Z.pow_le_mono_r; lia).
  unfold InitLut. rewrite Lut_size by assumption.
  destruct (resize_Ok (2 ^ LUT_BITS + 1)) as (lut0 & -> & Hs0 & Hg0);
    [rewrite max_size_8; lia|]. cbn [bind].
  rewrite IntFacts.to_ssize_t_small by lia.
  set (n := Z.to_nat (Vec.size vals - 1)).
  destruct (InitLut_for_Ok n 0 {| st_Lut := lut0; st_thresh := 0; st_last := 0 |})
    as (st & -> & [Hsz Hth Hla Hlp Hen Hmo Hpo Htr]); [lia|lia| |].
  { constructor; cbn [st_Lut st_thresh st_last]; try lia.
    - intros k x Hk. pose proof (get_bounds _ _ _ Hk) as Hr.
      rewrite Hg0 in Hk by lia. injection Hk as <-. lia.
    - intros a b x y _ Ha Hb'.
      pose proof (get_bounds _ _ _ Ha). pose proof (get_bounds _ _ _ Hb').
      rewrite Hg0 in Ha, Hb' by lia. injection Ha as <-. injection Hb' as <-. lia.
    - apply Hg0. lia. }
  cbn [bind]. rewrite Hsz.
  replace (2 ^ LUT_BITS + 1 - 1) with (2 ^ LUT_BITS) by lia.
  rewrite IntFacts.to_size_t_small by lia.
  destruct (fill_range_Ok (st_thresh st) (2 ^ LUT_BITS) (st_last st) (st_Lut st))
    as (lut & -> & Hs & Hg); [lia|lia|]. cbn [bind].
  eexists. split; [reflexivity|].
  constructor; cbn [Lut Vals LutEnd]; try lia; try reflexivity.
  - intros k x. rewrite Hg. intros Hk. zcases; use_inv.
  - intros a b x y Hab. rewrite !Hg. intros Ha Hb'. zcases; use_inv.
  - intros k x Hk. rewrite Hg. intros Hx. zcases; use_inv.
  - rewrite Hg. zcases; try lia. assumption.
Qed.

Lemma construct_Ok : exists s, construct T LUT_BITS vals = Ok s /\ Lut_inv LUT_BITS vals s.
Proof.
  unfold construct. rewrite Z.gtb_ltb.
  destruct (Z.ltb_spec 0 LUT_BITS), (Z.ltb_spec LUT_BITS 32); try lia.
  apply InitLut_Ok.
Qed.

End InitLutFacts.

(** Construction succeeds exactly for [LUT_BITS] from 1 to 30: other
    values are rejected by the [static_assert], except 31, where [resize]
    throws. *)
Lemma construct_LUT_BITS T LUT_BITS vals s :
  construct T LUT_BITS vals = Ok s -> 1 <= LUT_BITS <= 30.
Proof.
  unfold construct. rewrite Z.gtb_ltb.
  destruct (Z.ltb_spec 0 LUT_BITS), (Z.ltb_spec LUT_BITS 32); try discriminate.
  destruct (Z.eq_dec LUT_BITS 31) as [->|]; [|lia].
  unfold InitLut. rewrite Lut_size_31. discriminate.
Qed.

Lemma construct_31 T vals : construct T 31 vals = Fault LengthError.
Proof. reflexivity. Qed.

Lemma construct_inv T LUT_BITS vals s :
  well_formed T vals -> construct T LUT_BITS vals = Ok s ->
  Lut_inv LUT_BITS vals s.
Proof.
  intros Hwf Hc. pose proof (construct_LUT_BITS _ _ _ _ Hc) as HB.
  destruct (construct_Ok T LUT_BITS vals HB Hwf) as (s' & Hc' & Hinv).
  congruence.
Qed.

(** * The interval end *)

(** The two cases of line 75. *)
Lemma LutIntervalEnd_cases T LUT_BITS vals s key :
  well_formed T vals -> in_domain T key = true ->
  construct T LUT_BITS vals = Ok s ->
  let bucket := lutIndex T LUT_BITS key in
  exists e, LutIntervalEnd s bucket = Ok e /\
    ((bucket + 1 >= LutEnd s /\ e = Int.to_size_t (Vec.size vals - 1)) \/
     (bucket + 1 < LutEnd s /\
      exists next, Vec.get (Lut s) (bucket + 1) = Ok next /\
                   1 <= next <= Vec.size vals - 1 /\ e = next - 1)).
Proof.
  intros Hwf Hkey Hc bucket.
  pose proof (construct_LUT_BITS _ _ _ _ Hc) as HB.
  destruct (construct_inv T LUT_BITS vals s Hwf Hc) as [HV Hsz Hend Hen _ Hpo _].
  pose proof (lutIndex_range T LUT_BITS key ltac:(lia) Hkey) as Hr.
  fold bucket in Hr.
  assert (2 ^ LUT_BITS <= 2 ^ 30) by (apply Z.pow_le_mono_r; lia).
  unfold LutIntervalEnd. rewrite IntFacts.to_uint32_small by lia.
  rewrite Z.geb_leb, HV.
  destruct (Z.leb_spec (LutEnd s) (bucket + 1)) as [Hge|Hlt].
  - eexists. split; [reflexivity|]. left. split; [lia|reflexivity].
  - destruct (get_in_range (Lut s) (bucket + 1)) as [next Hn]; [lia|].
    rewrite Hn. cbn [bind].
    pose proof (Hen _ _ Hn). pose proof (Hpo (bucket + 1) next ltac:(lia) Hn).
    pose proof (vals_size_bound T vals Hwf) as Hb.
    exists (next - 1). rewrite IntFacts.to_size_t_small by lia.
    split; [reflexivity|]. right. split; [assumption|].
    exists next. repeat split; try assumption; lia.
Qed.

(** * The shared binary search

    What [BinarySearch] does compute: the loop never exhausts the bound
    on its iterations, and on a range [left <= right] inside the array it
    returns the partition point of [_ < key] among [left .. right - 1]. *)

Lemma shiftr_1_half len : Z.shiftr len 1 = len / 2.
Proof. rewrite Z.shiftr_div_pow2 by lia. reflexivity. Qed.

Lemma BinarySearch_while_S T fuel vals key len first :
  BinarySearch_while T (S fuel) vals key len first =
  if len >? 0 then
    let half := Z.shiftr len 1 in
    let middle := Int.to_size_t (first + half) in
    v <- Vec.get vals middle ;;
    if less T v key then
      BinarySearch_while T fuel vals key
        (Int.to_size_t (Int.to_size_t (len - half) - 1))
        (Int.to_size_t (middle + 1))
    else
      BinarySearch_while T fuel vals key half first
  else Ok first.
Proof. reflexivity. Qed.

(** 65 iterations are more than a [size_t] length can take. *)
Lemma BinarySearch_while_fuel T fuel vals key len first :
  (fuel <= 64)%nat -> 0 <= len < 2 ^ Z.of_nat fuel ->
  BinarySearch_while T (S fuel) vals key len first <> Fault OutOfFuel.
Proof.
  revert len first. induction fuel as [|fuel IH]; intros len first Hf Hlen.
  - cbn. replace len with 0 by (cbn in Hlen; lia). cbn. discriminate.
  - rewrite Nat2Z.inj_succ, Z.pow_succ_r in Hlen by lia.
    assert (Hp : 2 ^ Z.of_nat fuel <= 2 ^ 63) by (apply Z.pow_le_mono_r; lia).
    rewrite BinarySearch_while_S. cbv zeta. rewrite Z.gtb_ltb.
    destruct (Z.ltb_spec 0 len); [|discriminate].
    rewrite shiftr_1_half.
    destruct (Vec.get vals (Int.to_size_t (first + len / 2))) as [a|f] eqn:E;
      cbn [bind]; [|apply get_Fault in E; now subst f].
    assert (Hh : 0 <= len / 2 < 2 ^ Z.of_nat fuel /\
                 0 <= len - len / 2 - 1 <= len / 2)
      by (Z.div_mod_to_equations; lia).
    destruct (less T a key); apply IH; try lia.
    rewrite (IntFacts.to_size_t_small (len - len / 2)) by lia.
    rewrite IntFacts.to_size_t_small; lia.
Qed.

(** [BinarySearch] always terminates: it returns, or it has read outside
    the array. *)
Lemma BinarySearch_total T vals left right key :
  (exists r, BinarySearch T vals left right key = Ok r) \/
  BinarySearch T vals left right key = Fault OutOfBounds.
Proof.
  unfold BinarySearch.
  set (len := Int.to_size_t (Int.to_ssize_t (right - left))).
  set (first := Int.to_size_t left).
  pose proof (BinarySearch_while_fuel T 64 vals key len first (le_n _)
                (IntFacts.to_size_t_range _)) as Hfuel.
  assert (Hfaults : forall fuel l f e,
             BinarySearch_while T fuel vals key l f = Fault e ->
             e = OutOfBounds \/ e = OutOfFuel).
  { induction fuel as [|fuel IH]; intros l f e.
    - cbn. intros [= <-]. auto.
    - rewrite BinarySearch_while_S. cbv zeta.
      destruct (l >? 0); [|discriminate].
      destruct (Vec.get vals _) as [v|e'] eqn:E; cbn [bind].
      + destruct (less T v key); apply IH.
      + intros [= <-]. left. now apply get_Fault in E. }
  destruct (BinarySearch_while T 65 vals key len first) as [r|e] eqn:E; cbn [bind].
  - left. eauto.
  - right. destruct (Hfaults _ _ _ _ E) as [->| ->]; [reflexivity|contradiction].
Qed.

Section BinarySearchFacts.

Variable T : Pod32.
Variable vals : list Z.
Variable key : Z.

Hypothesis vals_size : Vec.size vals < 2 ^ 61.
Hypothesis vals_partitioned : partitioned T vals key.

Lemma BinarySearch_while_spec lo hi fuel :
  0 <= lo -> hi <= Vec.size vals ->
  forall len first,
    lo <= first -> 0 <= len < 2 ^ Z.of_nat fuel -> first + len <= hi ->
    (forall k a, lo <= k < first -> Vec.get vals k = Ok a -> less T a key = true) ->
    (forall k a, first + len <= k < hi -> Vec.get vals k = Ok a -> less T a key = false) ->
    exists r, BinarySearch_while T (S fuel) vals key len first = Ok r /\
      first <= r <= first + len /\
      (forall k a, lo <= k < r -> Vec.get vals k = Ok a -> less T a key = true) /\
      (forall k a, r <= k < hi -> Vec.get vals k = Ok a -> less T a key = false).
Proof.
  intros Hlo Hhi. induction fuel as [|fuel IH]; intros len first Hf Hlen Hsum Hbelow Habove.
  - replace len with 0 in * by (cbn in Hlen; lia). exists first. cbn.
    split; [reflexivity|]. split; [lia|]. split; [assumption|].
    intros k a Hk. apply Habove. lia.
  - rewrite Nat2Z.inj_succ, Z.pow_succ_r in Hlen by lia.
    rewrite BinarySearch_while_S. cbv zeta. rewrite Z.gtb_ltb.
    destruct (Z.ltb_spec 0 len) as [Hpos|Hzero].
    + rewrite shiftr_1_half.
      assert (Hh : 0 <= len / 2 < len /\ len - len / 2 - 1 <= len / 2 /\
                   len / 2 < 2 ^ Z.of_nat fuel)
        by (Z.div_mod_to_equations; lia).
      rewrite (IntFacts.to_size_t_small (first + len / 2)) by lia.
      destruct (get_in_range vals (first + len / 2)) as [v Hv]; [lia|].
      rewrite Hv. cbn [bind].
      destruct (less T v key) eqn:Hlt.
      * rewrite (IntFacts.to_size_t_small (len - len / 2)) by lia.
        rewrite !IntFacts.to_size_t_small by lia.
        destruct (IH (len - len / 2 - 1) (first + len / 2 + 1))
          as (r & Hr & Hrange & Hb & Ha); try lia.
        -- intros k a Hk Hka.
           apply (vals_partitioned k (first + len / 2) a v); auto with lia.
        -- intros k a Hk. apply Habove. lia.
        -- exists r. split; [assumption|]. split; [lia|]. auto.
      * destruct (IH (len / 2) first) as (r & Hr & Hrange & Hb & Ha); try lia.
        -- assumption.
        -- intros k a Hk Hka.
           destruct (less T a key) eqn:Hak; [|reflexivity].
           rewrite <- Hlt. symmetry.
           apply (vals_partitioned (first + len / 2) k v a); auto with lia.
        -- exists r. split; [assumption|]. split; [lia|]. auto.
    + assert (len = 0) by lia. subst len. exists first.
      split; [reflexivity|]. split; [lia|]. split; [assumption|].
      intros k a Hk. apply Habove. lia.
Qed.

(** [BinarySearch] over [left .. right] inside the array: every read is
    in bounds and the result is the partition point of [left .. right-1]
    (and [right] if all of them are less than the key). *)
Lemma BinarySearch_spec left right :
  0 <= left <= right -> right <= Vec.size vals ->
  exists r, BinarySearch T vals left right key = Ok r /\
    left <= r <= right /\
    (forall k a, left <= k < r -> Vec.get vals k = Ok a -> less T a key = true) /\
    (forall k a, r <= k < right -> Vec.get vals k = Ok a -> less T a key = false).
Proof.
  intros Hlr Hr. unfold BinarySearch.
  unfold Vec.size in *.
  rewrite (IntFacts.to_ssize_t_small (right - left)) by lia.
  rewrite !IntFacts.to_size_t_small by lia.
  destruct (BinarySearch_while_spec left right 64 ltac:(lia) Hr (right - left) left)
    as (r & -> & Hrange & Hb & Ha); try lia.
  cbn [bind]. exists r. rewrite IntFacts.to_ssize_t_small by lia.
  split; [reflexivity|]. split; [lia|]. split; [assumption|].
  intros k a Hk. apply Ha. lia.
Qed.

End BinarySearchFacts.

(** * The order of the element types *)

Lemma comparable_float v :
  comparable T_float v = true -> 0 <= v < 2 ^ 32 /\ Float32.is_nan v = false.
Proof.
  unfold comparable. intros H. apply andb_prop in H as [H1 H2].
  apply in_domain_float in H1. split; [assumption|].
  now destruct (Float32.is_nan v).
Qed.

Lemma less_rank T a b :
  comparable T a = true -> comparable T b = true ->
  less T a b = (rank T a <? rank T b).
Proof.
  destruct T; try reflexivity. intros Ha Hb.
  apply comparable_float in Ha as [Ha Na], Hb as [Hb Nb].
  now apply Float32Facts.ltb_ord.
Qed.

Lemma equal_to_rank T a b :
  comparable T a = true -> comparable T b = true ->
  equal_to T a b = (rank T a =? rank T b).
Proof.
  destruct T; try reflexivity. intros Ha Hb.
  apply comparable_float in Ha as [Ha Na], Hb as [Hb Nb].
  now apply Float32Facts.eqb_ord.
Qed.

Lemma get_comparable T vals i v :
  all_comparable T vals -> Vec.get vals i = Ok v -> comparable T v = true.
Proof.
  intros Hc H. apply get_Ok in H as [_ H].
  unfold all_comparable in Hc. rewrite Forall_lookup in Hc. eauto.
Qed.

(** ** Sorted arrays *)

Lemma sorted_from_lookup T a vals j b :
  sorted_from T a vals = true -> vals !! j = Some b -> less T b a = false.
Proof.
  revert j. induction vals as [|c vals IH]; intros j Hs Hj; [discriminate|].
  cbn in Hs. apply andb_prop in Hs as [Hc Hs].
  destruct j as [|j]; cbn in Hj.
  - injection Hj as ->. now destruct (less T b a).
  - eauto.
Qed.

Lemma sorted_lookup T vals (i j : nat) a b :
  sorted T vals -> (i < j)%nat ->
  vals !! i = Some a -> vals !! j = Some b -> less T b a = false.
Proof.
  unfold sorted. revert i j. induction vals as [|c vals IH]; intros i j Hs Hij Hi Hj;
    [discriminate|].
  cbn in Hs. apply andb_prop in Hs as [Hc Hs].
  destruct j as [|j]; [lia|]. cbn in Hj.
  destruct i as [|i]; cbn in Hi.
  - injection Hi as ->. eapply sorted_from_lookup; eauto.
  - apply (IH i j); auto with lia.
Qed.

Lemma sorted_get T vals i j a b :
  sorted T vals -> i < j ->
  Vec.get vals i = Ok a -> Vec.get vals j = Ok b -> less T b a = false.
Proof.
  intros Hs Hij Hi Hj. apply get_Ok in Hi as [Hi1 Hi2], Hj as [Hj1 Hj2].
  apply (sorted_lookup T vals (Z.to_nat i) (Z.to_nat j)); auto with lia.
Qed.

(** The ranks of a sorted array of comparable values do not decrease. *)
Lemma sorted_rank T vals i j a b :
  sorted T vals -> all_comparable T vals -> i <= j ->
  Vec.get vals i = Ok a -> Vec.get vals j = Ok b -> rank T a <= rank T b.
Proof.
  intros Hs Hc Hij Hi Hj.
  destruct (Z.eq_dec i j) as [->|Hne]; [replace b with a by congruence; lia|].
  pose proof (sorted_get T vals i j a b Hs ltac:(lia) Hi Hj) as Hlt.
  rewrite less_rank in Hlt by eauto using get_comparable. lia.
Qed.

Lemma sorted_partitioned T vals key :
  sorted T vals -> all_comparable T vals -> comparable T key = true ->
  partitioned T vals key.
Proof.
  intros Hs Hc Hk i j a b Hij Hi Hj Hlt.
  pose proof (sorted_rank T vals i j a b Hs Hc Hij Hi Hj).
  rewrite less_rank in * by eauto using get_comparable. lia.
Qed.

(** ** [std::lower_bound] *)

Lemma lower_bound_le T vals key : (lower_bound T vals key <= length vals)%nat.
Proof.
  induction vals as [|v vals IH]; cbn; [lia|]. destruct (less T v key); lia.
Qed.

Lemma lower_bound_below T vals key (k : nat) a :
  (k < lower_bound T vals key)%nat -> vals !! k = Some a -> less T a key = true.
Proof.
  revert k. induction vals as [|v vals IH]; intros k Hk Ha; cbn in *; [lia|].
  destruct (less T v key) eqn:E; [|lia].
  destruct k as [|k]; cbn in Ha; [congruence|]. apply (IH k); auto with lia.
Qed.

Lemma lower_bound_at T vals key a :
  vals !! lower_bound T vals key = Some a -> less T a key = false.
Proof.
  induction vals as [|v vals IH]; cbn; [discriminate|].
  destruct (less T v key) eqn:E; cbn; [assumption|congruence].
Qed.

(** * [MyBinarySearch] and [StdBinarySearch] *)

Section PlainSearch.

Variable T : Pod32.
Variable s : SearchPod32.
Variable key : Z.

Hypothesis vals_wf : well_formed T (Vals s).
Hypothesis vals_comparable : all_comparable T (Vals s).
Hypothesis vals_sorted : sorted T (Vals s).
Hypothesis key_comparable : comparable T key = true.

Let N := Vec.size (Vals s).
Let lb := Z.of_nat (lower_bound T (Vals s) key).

(** On a non-empty array [MyBinarySearch] stays in bounds and returns the
    lower bound of the key, capped at the last index: never -1. *)
Lemma MyBinarySearch_lower_bound :
  1 <= N -> MyBinarySearch T s key = Ok (Z.min lb (N - 1)).
Proof.
  intros HN. pose proof (vals_size_bound T (Vals s) vals_wf) as Hb. fold N in Hb.
  unfold MyBinarySearch. fold N.
  rewrite IntFacts.to_ssize_t_small by lia.
  destruct (BinarySearch_spec T (Vals s) key ltac:(fold N; lia)
              (sorted_partitioned T (Vals s) key vals_sorted vals_comparable key_comparable)
              0 (N - 1) ltac:(lia) ltac:(fold N; lia))
    as (r & -> & Hr & Hbelow & Habove).
  f_equal.
  pose proof (lower_bound_le T (Vals s) key) as Hle.
  destruct (Z.lt_trichotomy r lb) as [Hlt|[Heq|Hgt]].
  - destruct (Z.eq_dec r (N - 1)) as [->|Hne]; [lia|].
    destruct (get_in_range (Vals s) r) as [a Ha]; [fold N; lia|].
    pose proof (Habove r a ltac:(lia) Ha) as H1.
    apply get_Ok in Ha as [_ Ha].
    rewrite (lower_bound_below T (Vals s) key (Z.to_nat r) a) in H1;
      [discriminate|unfold lb in Hlt; lia|assumption].
  - lia.
  - destruct (get_in_range (Vals s) lb) as [a Ha]; [fold N; unfold lb in *; lia|].
    pose proof (Hbelow lb a ltac:(unfold lb in *; lia) Ha) as H1.
    apply get_Ok in Ha as [_ Ha]. unfold lb in Ha. rewrite Nat2Z.id in Ha.
    rewrite (lower_bound_at T (Vals s) key a Ha) in H1. discriminate.
Qed.

Lemma MyBinarySearch_in_bounds :
  1 <= N -> exists r, MyBinarySearch T s key = Ok r /\ 0 <= r <= N - 1.
Proof.
  intros HN. rewrite MyBinarySearch_lower_bound by assumption.
  eexists. split; [reflexivity|]. unfold lb. lia.
Qed.

(** [StdBinarySearch] returns -1 for a key that does not occur. *)
Lemma StdBinarySearch_absent :
  occurs T (Vals s) key = false -> StdBinarySearch T s key = Ok not_found.
Proof.
  intros Habs. unfold StdBinarySearch.
  destruct (Vals s !! lower_bound T (Vals s) key) as [v|] eqn:E; [|reflexivity].
  unfold occurs in Habs.
  destruct (equal_to T v key) eqn:Heq; [|reflexivity].
  assert (existsb (fun v => equal_to T v key) (Vals s) = true); [|congruence].
  apply existsb_exists. exists v. split; [|assumption].
  apply list_elem_of_In. eapply list_elem_of_lookup_2; eauto.
Qed.

(** For a key that occurs at index [p], both searches return the same
    index [i <= p], and it holds the key. *)
Lemma plain_searches_present p v :
  Vec.get (Vals s) p = Ok v -> equal_to T v key = true ->
  exists i w,
    StdBinarySearch T s key = Ok i /\ MyBinarySearch T s key = Ok i /\
    0 <= i <= p /\ Vec.get (Vals s) i = Ok w /\ equal_to T w key = true.
Proof.
  intros Hp Hv.
  pose proof (get_bounds _ _ _ Hp) as Hpb. fold N in Hpb.
  pose proof (get_comparable T _ _ _ vals_comparable Hp) as Hcv.
  rewrite equal_to_rank in Hv by assumption. apply Z.eqb_eq in Hv.
  assert (Hlbp : lb <= p).
  { destruct (Z.le_gt_cases lb p) as [|Hgt]; [assumption|]. exfalso.
    pose proof Hp as Hp'. apply get_Ok in Hp' as [_ Hp'].
    pose proof (lower_bound_below T (Vals s) key (Z.to_nat p) v
                  ltac:(unfold lb in Hgt; lia) Hp') as Hlt.
    rewrite less_rank in Hlt by assumption. lia. }
  destruct (get_in_range (Vals s) lb) as [w Hw]; [fold N; unfold lb in *; lia|].
  pose proof (get_comparable T _ _ _ vals_comparable Hw) as Hcw.
  pose proof (sorted_rank T (Vals s) lb p w v vals_sorted vals_comparable Hlbp Hw Hp).
  pose proof Hw as Hw'. apply get_Ok in Hw' as [_ Hw'].
  unfold lb in Hw'. rewrite Nat2Z.id in Hw'.
  pose proof (lower_bound_at T (Vals s) key w Hw') as Hnlt.
  rewrite less_rank in Hnlt by assumption.
  assert (Heq : equal_to T w key = true) by (rewrite equal_to_rank by assumption; lia).
  exists lb, w. repeat split; try assumption; try (unfold lb; lia).
  - unfold StdBinarySearch. rewrite Hw', Heq. reflexivity.
  - rewrite MyBinarySearch_lower_bound by lia. f_equal. lia.
Qed.

(** The index they return is the lowest one that holds the key. *)
Lemma lower_bound_lowest k a :
  0 <= k < lb -> Vec.get (Vals s) k = Ok a -> equal_to T a key = false.
Proof.
  intros Hk Ha. pose proof (get_comparable T _ _ _ vals_comparable Ha) as Hca.
  apply get_Ok in Ha as [_ Ha].
  pose proof (lower_bound_below T (Vals s) key (Z.to_nat k) a
                ltac:(unfold lb in Hk; lia) Ha) as Hlt.
  rewrite less_rank in Hlt by assumption. rewrite equal_to_rank by assumption. lia.
Qed.

End PlainSearch.

(** * When the mapping is faithful *)

Lemma canonical_comparable T v : canonical T v = true -> comparable T v = true.
Proof. unfold canonical. intros H. now apply andb_prop in H. Qed.

Lemma canonical_in_domain T v : canonical T v = true -> in_domain T v = true.
Proof.
  intros H. apply canonical_comparable in H. unfold comparable in H.
  now apply andb_prop in H.
Qed.

Lemma all_canonical_comparable T vals : all_canonical T vals -> all_comparable T vals.
Proof.
  intros H. eapply Forall_impl; [exact H|]. intros v. apply canonical_comparable.
Qed.

Lemma canonical_float v :
  canonical T_float v = true ->
  0 <= v < 2 ^ 32 /\ Float32.is_nan v = false /\ v <> 2 ^ 31.
Proof.
  unfold canonical. intros H. apply andb_prop in H as [H1 H2].
  apply comparable_float in H1 as [H1 H3].
  destruct (Z.eqb_spec v 0x80000000); [discriminate|].
  repeat split; try lia; assumption.
Qed.

(** The mapped key of a canonical value, from its rank. *)
Lemma MapValue_rank T v :
  canonical T v = true ->
  MapValue T v =
    match T with
    | T_uint32 => rank T v
    | T_int32 => rank T v + 2 ^ 31
    | T_float => if rank T v <? 0 then 2 ^ 31 - 1 + rank T v else 2 ^ 31 + rank T v
    end.
Proof.
  destruct T; intros H.
  - reflexivity.
  - apply canonical_in_domain, in_domain_int32 in H. now apply MapValue_int32.
  - apply canonical_float in H as (Hr & _ & Hz).
    rewrite MapValue_float_ord by assumption. cbn [rank].
    unfold Float32.ord, Float32.sign, Float32.magnitude.
    destruct (Z.leb_spec (2 ^ 31) v).
    + replace (v mod 2 ^ 31) with (v - 2 ^ 31)
        by (apply Z.mod_unique with 1; lia).
      destruct (Z.ltb_spec (- (v - 2 ^ 31)) 0); lia.
    + rewrite Z.mod_small by lia. destruct (Z.ltb_spec v 0); lia.
Qed.

Lemma MapValue_rank_le T a b :
  canonical T a = true -> canonical T b = true ->
  rank T a <= rank T b -> MapValue T a <= MapValue T b.
Proof.
  intros Ha Hb Hle. rewrite !MapValue_rank by assumption.
  destruct T; try lia.
  destruct (Z.ltb_spec (rank T_float a) 0), (Z.ltb_spec (rank T_float b) 0); lia.
Qed.

Lemma MapValue_rank_eq T a b :
  canonical T a = true -> canonical T b = true ->
  rank T a = rank T b -> MapValue T a = MapValue T b.
Proof. intros Ha Hb Heq. rewrite !MapValue_rank by assumption. now rewrite Heq. Qed.

Lemma lutIndex_le T LUT_BITS a b :
  1 <= LUT_BITS <= 31 ->
  MapValue T a <= MapValue T b -> lutIndex T LUT_BITS a <= lutIndex T LUT_BITS b.
Proof.
  intros HB Hle. unfold lutIndex. rewrite !Z.shiftr_div_pow2 by lia.
  apply Z.div_le_mono; [apply Z.pow_pos_nonneg; lia|assumption].
Qed.

(** Along a sorted array of canonical values the buckets do not
    decrease. *)
Lemma sorted_buckets T LUT_BITS vals i j a b :
  1 <= LUT_BITS <= 31 -> sorted T vals -> all_canonical T vals -> i <= j ->
  Vec.get vals i = Ok a -> Vec.get vals j = Ok b ->
  lutIndex T LUT_BITS a <= lutIndex T LUT_BITS b.
Proof.
  intros HB Hs Hc Hij Hi Hj. apply lutIndex_le; [assumption|].
  pose proof (all_canonical_comparable _ _ Hc) as Hcmp.
  unfold all_canonical in Hc. rewrite Forall_lookup in Hc.
  pose proof Hi as Hi'. pose proof Hj as Hj'.
  apply get_Ok in Hi' as [_ Hi'], Hj' as [_ Hj'].
  apply MapValue_rank_le; eauto.
  eapply sorted_rank; eauto.
Qed.

(** * The lookup table of a sorted array

    What [InitLut] computes when the buckets do not decrease along the
    array: entry 0 is 0, and an entry [j] from 1 to [LutEnd] is the index
    of the first element, _counted from index 1_, whose bucket is at least
    [j].  The element at index 0 takes no part in it. *)

Section LutSorted.

Variable T : Pod32.
Variable LUT_BITS : Z.
Variable vals : list Z.

Hypothesis LUT_BITS_range : 1 <= LUT_BITS <= 30.
Hypothesis vals_wf : well_formed T vals.
Hypothesis buckets_sorted : forall i j a b, i <= j ->
  Vec.get vals i = Ok a -> Vec.get vals j = Ok b ->
  lutIndex T LUT_BITS a <= lutIndex T LUT_BITS b.

Lemma InitLut_body_sorted i st :
  0 <= i -> i + 1 < Vec.size vals ->
  loop_inv LUT_BITS st i -> sorted_inv T LUT_BITS vals st i ->
  exists st', InitLut_body T LUT_BITS vals i st = Ok st' /\
    loop_inv LUT_BITS st' (i + 1) /\ sorted_inv T LUT_BITS vals st' (i + 1).
Proof.
  intros Hi Hn Hinv [Hhi Hze Hla Hlu Hl0].
  destruct (InitLut_body_Ok T LUT_BITS vals LUT_BITS_range vals_wf i st Hi Hn Hinv)
    as (st' & Hbody & Hinv').
  exists st'. split; [assumption|]. split; [assumption|].
  destruct Hinv as [Hsz Hth Hlast _ _ _ _ _].
  pose proof (vals_size_bound T vals vals_wf) as Hb.
  unfold InitLut_body in Hbody. rewrite IntFacts.to_size_t_small in Hbody by lia.
  destruct (get_in_range vals (i + 1)) as [v Hv]; [lia|].
  rewrite Hv in Hbody. cbn [bind] in Hbody.
  fold (lutIndex T LUT_BITS v) in Hbody.
  set (next := lutIndex T LUT_BITS v) in *.
  destruct (set_Ok (st_Lut st) (st_thresh st) (st_last st)) as (lut1 & E1 & Hs1 & Hg1);
    [lia|]. rewrite E1 in Hbody. cbn [bind] in Hbody.
  (* the next bucket is not below the current threshold *)
  assert (Hmono : st_thresh st <= next).
  { destruct (Z.eq_dec (st_thresh st) 0) as [->|Hne].
    - apply (lutIndex_range T LUT_BITS v); [lia|].
      eapply vals_get_domain; eauto.
    - destruct (Hla ltac:(lia)) as (H1 & (a & Ha & Hba) & _).
      pose proof (buckets_sorted (st_last st) (i + 1) a v ltac:(lia) Ha Hv).
      fold next in H. lia. }
  assert (Hprev : forall k a, 1 <= k < i + 1 -> Vec.get vals k = Ok a ->
                            lutIndex T LUT_BITS a <= st_thresh st).
  { intros k a Hk Ha. apply (Hhi k); auto with lia. }
  rewrite Z.gtb_ltb in Hbody.
  destruct (Z.ltb_spec (st_thresh st) next) as [Hup|Hdown].
  - destruct (fill_range_Ok (st_thresh st + 1) (next + 1) (i + 1) lut1)
      as (lut2 & E2 & Hs2 & Hg2); [lia|
        pose proof (lutIndex_range T LUT_BITS v ltac:(lia)
                      (vals_get_domain T vals vals_wf _ _ Hv)); fold next in H; lia|].
    rewrite E2 in Hbody. cbn [bind] in Hbody. injection Hbody as <-.
    assert (Hnew : forall j, st_thresh st < j <= next -> first_from_1 T LUT_BITS vals (i + 1) j).
    { intros j Hj. split; [lia|]. split; [exists v; fold next; auto with lia|].
      intros k a Hk Ha. pose proof (Hprev k a Hk Ha). lia. }
    constructor; cbn [st_Lut st_thresh st_last].
    + intros k a Hk Ha. destruct (Z.eq_dec k (i + 1)) as [->|].
      * replace a with v by congruence. fold next. lia.
      * pose proof (Hprev k a ltac:(lia) Ha). lia.
    + lia.
    + intros _. apply Hnew. lia.
    + intros j x Hj. rewrite Hg2, Hg1. intros Hx. zcases;
        first [ exfalso; lia
              | injection Hx as <-;
                first [ apply Hnew; lia
                      | assert (j = st_thresh st) as -> by lia; apply Hla; lia ]
              | apply Hlu; [lia|assumption] ].
    + rewrite Hg2, Hg1. zcases;
        first [ exfalso; lia | assumption | f_equal; apply Hze; lia ].
  - injection Hbody as <-. assert (Heq : next = st_thresh st) by lia.
    constructor; cbn [st_Lut st_thresh st_last]; rewrite ?Heq.
    + intros k a Hk Ha. destruct (Z.eq_dec k (i + 1)) as [->|].
      * replace a with v by congruence. fold next. lia.
      * apply (Hprev k a); auto with lia.
    + assumption.
    + assumption.
    + intros j x Hj. rewrite Hg1. intros Hx. zcases;
        first [ exfalso; lia
              | injection Hx as <-;
                assert (j = st_thresh st) as -> by lia; apply Hla; lia
              | apply Hlu; [lia|assumption] ].
    + rewrite Hg1. zcases;
        first [ exfalso; lia | assumption | f_equal; apply Hze; lia ].
Qed.

Lemma InitLut_for_sorted n i st :
  0 <= i -> i + Z.of_nat n + 1 <= Vec.size vals \/ n = O ->
  loop_inv LUT_BITS st i -> sorted_inv T LUT_BITS vals st i ->
  exists st', InitLut_for T LUT_BITS n vals i st = Ok st' /\
    loop_inv LUT_BITS st' (i + Z.of_nat n) /\ sorted_inv T LUT_BITS vals st' (i + Z.of_nat n).
Proof.
  revert i st. induction n as [|n IH]; intros i st Hi Hn Hinv Hsinv.
  - exists st. replace (i + Z.of_nat 0) with i by lia. auto.
  - cbn [InitLut_for].
    destruct (InitLut_body_sorted i st) as (st1 & -> & Hinv1 & Hsinv1);
      [lia|lia|assumption|assumption|]. cbn [bind].
    destruct (IH (i + 1) st1) as (st2 & -> & Hinv2 & Hsinv2);
      [lia|lia|assumption|assumption|].
    exists st2. replace (i + Z.of_nat (S n)) with (i + 1 + Z.of_nat n) by lia. auto.
Qed.

Lemma construct_sorted s :
  construct T LUT_BITS vals = Ok s -> Lut_sorted_inv T LUT_BITS vals s.
Proof.
  unfold construct. rewrite Z.gtb_ltb.
  destruct (Z.ltb_spec 0 LUT_BITS), (Z.ltb_spec LUT_BITS 32); try lia. cbn [andb].
  pose proof (vals_size_bound T vals vals_wf) as Hb.
  assert (Hpow : 2 ^ 1 <= 2 ^ LUT_BITS <= 2 ^ 30)
    by (split; apply Z.pow_le_mono_r; lia).
  unfold InitLut. rewrite Lut_size by assumption.
  destruct (resize_Ok (2 ^ LUT_BITS + 1)) as (lut0 & -> & Hs0 & Hg0);
    [rewrite max_size_8; lia|]. cbn [bind].
  rewrite IntFacts.to_ssize_t_small by lia.
  set (n := Z.to_nat (Vec.size vals - 1)).
  destruct (InitLut_for_sorted n 0 {| st_Lut := lut0; st_thresh := 0; st_last := 0 |})
    as (st & -> & [Hsz Hth Hla _ _ _ _ _] & [Hhi Hze Hlast Hlu Hl0]); [lia|lia| | |].
  { constructor; cbn [st_Lut st_thresh st_last]; try lia.
    - intros k x Hk. pose proof (get_bounds _ _ _ Hk) as Hr.
      rewrite Hg0 in Hk by lia. injection Hk as <-. lia.
    - intros a b x y _ Ha Hb'.
      pose proof (get_bounds _ _ _ Ha). pose proof (get_bounds _ _ _ Hb').
      rewrite Hg0 in Ha, Hb' by lia. injection Ha as <-. injection Hb' as <-. lia.
    - apply Hg0. lia. }
  { constructor; cbn [st_Lut st_thresh st_last]; try lia; try reflexivity.
    apply Hg0. lia. }
  cbn [bind]. rewrite Hsz.
  replace (2 ^ LUT_BITS + 1 - 1) with (2 ^ LUT_BITS) by lia.
  rewrite IntFacts.to_size_t_small by lia.
  destruct (fill_range_Ok (st_thresh st) (2 ^ LUT_BITS) (st_last st) (st_Lut st))
    as (lut & -> & Hs & Hg); [lia|lia|]. cbn [bind].
  intros [= <-]. constructor; cbn [Lut Vals LutEnd].
  - rewrite Hg. zcases;
      first [ exfalso; lia | assumption | f_equal; apply Hze; lia ].
  - intros j x Hj. rewrite Hg. intros Hx. zcases;
      first [ exfalso; lia
            | injection Hx as <-;
              assert (j = st_thresh st) as -> by lia; apply Hlast; lia
            | apply Hlu; [lia|assumption] ].
  - intros k a Hk Ha. apply (Hhi k); [|assumption].
    pose proof (get_bounds _ _ _ Ha). lia.
Qed.

End LutSorted.

(** * [LutBinarySearch] on sorted arrays *)

(** A successful [BinarySearch] never returns an index before [left]. *)
Lemma BinarySearch_while_ge T fuel vals key len first r :
  Vec.size vals < 2 ^ 61 -> 0 <= first <= Vec.size vals -> 0 <= len < 2 ^ 64 ->
  BinarySearch_while T fuel vals key len first = Ok r ->
  first <= r <= Vec.size vals.
Proof.
  intros HN. revert len first.
  induction fuel as [|fuel IH]; intros len first Hf Hlen; [discriminate|].
  rewrite BinarySearch_while_S. cbv zeta. rewrite Z.gtb_ltb, shiftr_1_half.
  destruct (Z.ltb_spec 0 len); [|intros [= <-]; lia].
  assert (Hh : 0 <= len / 2 < 2 ^ 63) by (Z.div_mod_to_equations; lia).
  rewrite (IntFacts.to_size_t_small (first + len / 2)) by lia.
  destruct (Vec.get vals (first + len / 2)) as [v|f] eqn:E; cbn [bind];
    [|discriminate].
  apply get_bounds in E.
  destruct (less T v key).
  - rewrite (IntFacts.to_size_t_small (first + len / 2 + 1)) by lia.
    intros Hr. apply IH in Hr; [lia|lia|apply IntFacts.to_size_t_range].
  - intros Hr. apply IH in Hr; lia.
Qed.

Lemma BinarySearch_ge T vals left right key r :
  Vec.size vals < 2 ^ 61 -> 0 <= left <= Vec.size vals ->
  BinarySearch T vals left right key = Ok r -> left <= r <= Vec.size vals.
Proof.
  intros HN Hl. unfold BinarySearch.
  rewrite (IntFacts.to_size_t_small left) by lia.
  destruct (BinarySearch_while _ _ _ _ _ _) as [r'|] eqn:E; cbn [bind];
    [|discriminate].
  apply BinarySearch_while_ge in E;
    [|assumption|lia|apply IntFacts.to_size_t_range].
  rewrite IntFacts.to_ssize_t_small by lia. intros [= <-]. assumption.
Qed.

Section LutSearch.

Variable T : Pod32.
Variable LUT_BITS : Z.
Variable vals : list Z.
Variable s : SearchPod32.
Variable key : Z.

Hypothesis vals_wf : well_formed T vals.
Hypothesis vals_canonical : all_canonical T vals.
Hypothesis vals_sorted : sorted T vals.
Hypothesis key_canonical : canonical T key = true.
Hypothesis constructed : construct T LUT_BITS vals = Ok s.

(** [LutBinarySearch] finds a key whose first occurrence is at an index
    [p >= 1], or whose bucket is 0, or in an array of one element. *)
Lemma LutBinarySearch_present p :
  Vec.get vals p = Ok key ->
  (forall k a, 0 <= k < p -> Vec.get vals k = Ok a -> equal_to T a key = false) ->
  1 <= p \/ lutIndex T LUT_BITS key = 0 \/ Vec.size vals = 1 ->
  LutBinarySearch T LUT_BITS s key = Ok p.
Proof.
  intros Hp Hlow Hcond.
  pose proof (construct_LUT_BITS _ _ _ _ constructed) as HB.
  pose proof (all_canonical_comparable _ _ vals_canonical) as Hcmp.
  pose proof (canonical_comparable _ _ key_canonical) as Hkc.
  pose proof (canonical_in_domain _ _ key_canonical) as Hkd.
  pose proof (vals_size_bound T vals vals_wf) as Hb.
  pose proof (get_bounds _ _ _ Hp) as Hpb.
  destruct (construct_inv T LUT_BITS vals s vals_wf constructed)
    as [HV Hsz Hend Hen _ Hpo _].
  destruct (construct_sorted T LUT_BITS vals HB vals_wf
              (fun i j a b => sorted_buckets T LUT_BITS vals i j a b
                                ltac:(lia) vals_sorted vals_canonical)
              s constructed) as [Hz Hfirst Hhi].
  pose proof (lutIndex_range T LUT_BITS key ltac:(lia) Hkd) as Hbr.
  assert (Hbelow : forall k a, 0 <= k < p -> Vec.get vals k = Ok a -> less T a key = true).
  { intros k a Hk Ha. pose proof (Hlow k a Hk Ha) as Hne.
    pose proof (get_comparable T _ _ _ Hcmp Ha) as Hca.
    pose proof (sorted_rank T vals k p a key vals_sorted Hcmp ltac:(lia) Ha Hp).
    rewrite equal_to_rank in Hne by assumption. rewrite less_rank by assumption. lia. }
  assert (Hat : less T key key = false) by (rewrite less_rank by assumption; lia).
  unfold LutBinarySearch. fold (lutIndex T LUT_BITS key).
  set (b := lutIndex T LUT_BITS key) in *.
  destruct (get_in_range (Lut s) b) as [start Hstart]; [lia|].
  rewrite Hstart. cbn [bind].
  destruct (LutIntervalEnd_cases T LUT_BITS vals s key vals_wf Hkd constructed)
    as (e & He & Hcases). fold b in He, Hcases.
  rewrite He. cbn [bind]. rewrite HV.
  pose proof (Hen _ _ Hstart) as Hsr.
  assert (Hse : 0 <= start <= p /\ p <= e <= Vec.size vals - 1).
  { destruct (Z.eq_dec (Vec.size vals) 1) as [H1|H1].
    - (* one element *)
      destruct Hcases as [[_ ->]|(_ & next & _ & Hn & _)]; [|lia].
      rewrite IntFacts.to_size_t_small by lia. lia.
    - assert (Hs : start <= p).
      { destruct (Z.eq_dec b 0) as [Hb0|Hb0].
        - rewrite Hb0, Hz in Hstart. injection Hstart as <-. lia.
        - assert (1 <= p) by (destruct Hcond as [|[|]]; lia).
          pose proof (Hhi p key ltac:(lia) Hp). fold b in H0.
          destruct (Hfirst b start ltac:(lia) Hstart) as (_ & _ & Hbefore).
          destruct (Z.le_gt_cases start p); [assumption|].
          pose proof (Hbefore p key ltac:(lia) Hp). fold b in H2. lia. }
      destruct Hcases as [[_ ->]|(Hlt & next & Hnext & Hn & ->)].
      + rewrite IntFacts.to_size_t_small by lia. lia.
      + destruct (Hfirst (b + 1) next ltac:(lia) Hnext) as (_ & (a & Ha & Hba) & _).
        destruct (Z.le_gt_cases next p); [|lia].
        pose proof (sorted_buckets T LUT_BITS vals next p a key ltac:(lia)
                      vals_sorted vals_canonical ltac:(lia) Ha Hp).
        fold b in H0. lia. }
  rewrite !IntFacts.to_ssize_t_small by lia.
  destruct (BinarySearch_spec T vals key ltac:(lia)
              (sorted_partitioned T vals key vals_sorted Hcmp Hkc)
              start e ltac:(lia) ltac:(lia))
    as (r & -> & Hr & Hrb & Hra).
  f_equal. destruct (Z.lt_trichotomy r p) as [Hlt|[Heq|Hgt]]; [|assumption|].
  - destruct (get_in_range vals r) as [a Ha]; [lia|].
    pose proof (Hbelow r a ltac:(lia) Ha). pose proof (Hra r a ltac:(lia) Ha).
    congruence.
  - pose proof (Hrb p key ltac:(lia) Hp). congruence.
Qed.

(** Otherwise it does not: for the key at index 0 of an array of at
    least two elements, in a bucket other than 0, the search starts past
    index 0. *)
Lemma LutBinarySearch_first_missed :
  Vec.get vals 0 = Ok key -> 2 <= Vec.size vals ->
  lutIndex T LUT_BITS key <> 0 ->
  LutBinarySearch T LUT_BITS s key <> Ok 0.
Proof.
  intros Hp HN Hb0.
  pose proof (construct_LUT_BITS _ _ _ _ constructed) as HB.
  pose proof (canonical_in_domain _ _ key_canonical) as Hkd.
  pose proof (vals_size_bound T vals vals_wf) as Hb.
  destruct (construct_inv T LUT_BITS vals s vals_wf constructed)
    as [HV Hsz Hend Hen _ Hpo _].
  destruct (construct_sorted T LUT_BITS vals HB vals_wf
              (fun i j a b => sorted_buckets T LUT_BITS vals i j a b
                                ltac:(lia) vals_sorted vals_canonical)
              s constructed) as [Hz Hfirst Hhi].
  pose proof (lutIndex_range T LUT_BITS key ltac:(lia) Hkd) as Hbr.
  unfold LutBinarySearch. fold (lutIndex T LUT_BITS key).
  set (b := lutIndex T LUT_BITS key) in *.
  destruct (get_in_range (Lut s) b) as [start Hstart]; [lia|].
  rewrite Hstart. cbn [bind].
  destruct (get_in_range vals 1) as [v1 Hv1]; [lia|].
  pose proof (sorted_buckets T LUT_BITS vals 0 1 key v1 ltac:(lia)
                vals_sorted vals_canonical ltac:(lia) Hp Hv1) as H01.
  fold b in H01.
  pose proof (Hhi 1 v1 ltac:(lia) Hv1) as H1.
  pose proof (Hpo b start ltac:(lia) Hstart) as Hs1.
  pose proof (Hen _ _ Hstart) as Hsr.
  destruct (LutIntervalEnd s b) as [e|]; cbn [bind]; [|discriminate].
  rewrite HV. rewrite (IntFacts.to_ssize_t_small start) by lia.
  intros Hr. apply BinarySearch_ge in Hr; lia.
Qed.

End LutSearch.

(** * The entries of the table and the first element of each bucket *)

Lemma get_cons {A} (v : A) (l : list A) k :
  Vec.get (v :: l) k = if k =? 0 then Ok v else Vec.get l (k - 1).
Proof.
  unfold Vec.get, Vec.size. cbn [length]. rewrite Nat2Z.inj_succ.
  destruct (Z.eqb_spec k 0) as [->|Hne].
  { destruct (Z.ltb_spec 0 (Z.succ (Z.of_nat (length l)))); [reflexivity|lia]. }
  destruct (Z.leb_spec 0 k), (Z.leb_spec 0 (k - 1)),
    (Z.ltb_spec k (Z.succ (Z.of_nat (length l)))),
    (Z.ltb_spec (k - 1) (Z.of_nat (length l))); cbn [andb]; try reflexivity; try lia.
  replace (Z.to_nat k) with (S (Z.to_nat (k - 1))) by lia. reflexivity.
Qed.

Lemma first_at_or_after_spec T LUT_BITS vals j :
  let x := first_at_or_after T LUT_BITS vals j in
  0 <= x <= Vec.size vals /\
  (forall k a, 0 <= k < x -> Vec.get vals k = Ok a -> lutIndex T LUT_BITS a < j) /\
  (forall a, Vec.get vals x = Ok a -> j <= lutIndex T LUT_BITS a).
Proof.
  induction vals as [|v vals IH]; cbn [first_at_or_after]; cbv zeta.
  - split; [unfold Vec.size; cbn; lia|]. split; [lia|].
    intros a Ha. apply get_bounds in Ha. unfold Vec.size in Ha. cbn in Ha. lia.
  - destruct IH as (Hr & Hbelow & Hat).
    assert (Hsz : Vec.size (v :: vals) = Vec.size vals + 1)
      by (unfold Vec.size; cbn [length]; lia).
    rewrite Z.geb_leb. destruct (Z.leb_spec j (lutIndex T LUT_BITS v)).
    + split; [lia|]. split; [lia|]. intros a. rewrite get_cons. cbn.
      intros [= <-]. assumption.
    + split; [lia|]. split.
      * intros k a Hk. rewrite get_cons. destruct (Z.eqb_spec k 0).
        -- intros [= <-]. assumption.
        -- apply Hbelow. lia.
      * intros a. rewrite get_cons.
        destruct (Z.eqb_spec (1 + first_at_or_after T LUT_BITS vals j) 0); [lia|].
        replace (1 + first_at_or_after T LUT_BITS vals j - 1)
          with (first_at_or_after T LUT_BITS vals j) by lia.
        apply Hat.
Qed.

(** On a sorted array of canonical values, the entry of a bucket [j]
    from 1 to [LutEnd] that lies above the bucket of [Vals[0]] is the
    index of the first element whose bucket is at least [j].  For the
    buckets up to that of [Vals[0]] it is not:
    see [Lut_entry_skips_first_element]. *)
Lemma Lut_entry_first T LUT_BITS vals s j :
  well_formed T vals -> all_canonical T vals -> sorted T vals ->
  construct T LUT_BITS vals = Ok s ->
  1 <= j <= LutEnd s ->
  (forall a, Vec.get vals 0 = Ok a -> lutIndex T LUT_BITS a < j) ->
  Vec.get (Lut s) j = Ok (first_at_or_after T LUT_BITS vals j).
Proof.
  intros Hwf Hcan Hsorted Hc Hj H0.
  pose proof (construct_LUT_BITS _ _ _ _ Hc) as HB.
  destruct (construct_inv T LUT_BITS vals s Hwf Hc) as [_ Hsz Hend _ _ _ _].
  destruct (construct_sorted T LUT_BITS vals HB Hwf
              (fun i j a b => sorted_buckets T LUT_BITS vals i j a b
                                ltac:(lia) Hsorted Hcan)
              s Hc) as [_ Hfirst _].
  destruct (get_in_range (Lut s) j) as [x Hx]; [lia|].
  rewrite Hx. f_equal.
  destruct (Hfirst j x Hj Hx) as (Hx1 & (a & Ha & Hba) & Hbefore).
  destruct (first_at_or_after_spec T LUT_BITS vals j) as (Hr & Hbelow & Hat).
  set (y := first_at_or_after T LUT_BITS vals j) in *.
  destruct (Z.lt_trichotomy x y) as [Hlt|[Heq|Hgt]]; [|assumption|].
  - pose proof (Hbelow x a ltac:(lia) Ha). lia.
  - destruct (get_in_range vals y) as [c Hc']; [apply get_bounds in Ha; lia|].
    pose proof (Hat c Hc').
    destruct (Z.eq_dec y 0) as [Hy|Hy].
    + rewrite Hy in Hc'. pose proof (H0 c Hc'). lia.
    + pose proof (Hbefore y c ltac:(lia) Hc'). lia.
Qed.

(** * Sanity of the [float] model *)

Lemma digits2_pos_log2 p : Z.pos (digits2_pos p) = Z.log2 (Z.pos p) + 1.
Proof.
  assert (H : forall q, digits2_pos q = Pos.size q)
    by (induction q; cbn; congruence).
  rewrite H. destruct p; cbn; lia.
Qed.

(** Every bit pattern denotes a number of the binary32 format
    ([prec = 24], [emax = 128]). *)
Lemma of_bits_valid cv :
  0 <= cv < 2 ^ 32 -> valid_binary 24 128 (Float32.of_bits cv) = true.
Proof.
  intros Hcv.
  destruct (Float32Facts.of_bits_cases cv Hcv)
    as [[_ ->]|[[_ ->]|[[_ ->]|(p & e & -> & _ & He & Hp & Hn & _)]]];
    try reflexivity.
  unfold valid_binary, bounded, canonical_mantissa, fexp, emin.
  rewrite digits2_pos_log2.
  apply andb_true_intro. split; [|apply Z.leb_le; lia].
  apply Z.eqb_eq.
  assert (Hl : 0 <= Z.log2 (Z.pos p) < 24).
  { split; [apply Z.log2_nonneg|]. apply Z.log2_lt_pow2; lia. }
  destruct (Z.eq_dec e (-149)) as [->|Hne]; [lia|].
  assert (Z.log2 (Z.pos p) = 23); [|lia].
  apply Z.log2_unique; lia.
Qed.

(** The two zeros compare equal, and [MapValue] tells them apart. *)
Lemma float_zeros :
  equal_to T_float 0x00000000 0x80000000 = true /\
  less T_float 0x80000000 0x00000000 = false /\
  MapValue T_float 0x80000000 = 0x7FFFFFFF /\
  MapValue T_float 0x00000000 = 0x80000000.
Proof. repeat split; reflexivity. Qed.

(** An array of floats that holds [+0.0] before [-0.0] is sorted (neither
    zero is less than the other) but its mapped keys are not; over
    [-1.0; +0.0; -0.0; 1.0] with [LUT_BITS = 1], [LutBinarySearch] of
    [+0.0] returns index 3, where [1.0] is. *)
Lemma float_zeros_search :
  let vals := [0xBF800000; 0x00000000; 0x80000000; 0x3F800000] in
  let s := {| Lut := [1; 3; 0]; Vals := vals; LutEnd := 1 |} in
  sorted T_float vals /\
  construct T_float 1 vals = Ok s /\
  StdBinarySearch T_float s 0 = Ok 1 /\
  MyBinarySearch T_float s 0 = Ok 1 /\
  LutBinarySearch T_float 1 s 0 = Ok 3.
Proof. cbv zeta. repeat split; reflexivity. Qed.

(** * The scenarios of the specification *)

Example scenario_unsigned :
  let vals := [1; 3; 3; 5; 7; 9] in
  exists s, construct T_uint32 2 vals = Ok s /\
    Vec.size (Lut s) = 5 /\
    LutBinarySearch T_uint32 2 s 3 = Ok 1 /\
    LutBinarySearch T_uint32 2 s 9 = Ok 5.
Proof. cbv zeta. eexists. repeat split; reflexivity. Qed.

Example scenario_signed :
  let vals := [-5; -1; 0; 2; 8] in
  map (MapValue T_int32) vals =
    [0x7FFFFFFB; 0x7FFFFFFF; 0x80000000; 0x80000002; 0x80000008] /\
  exists s, construct T_int32 2 vals = Ok s /\
    LutBinarySearch T_int32 2 s (-1) = Ok 1.
Proof. cbv zeta. split; [reflexivity|]. eexists. split; reflexivity. Qed.

(** [-3.5; -0.0; 1.25; 1000.0] *)
Example scenario_float :
  let vals := [0xC0600000; 0x80000000; 0x3FA00000; 0x447A0000] in
  map (MapValue T_float) vals =
    [0x3F9FFFFF; 0x7FFFFFFF; 0xBFA00000; 0xC47A0000] /\
  sorted T_float vals /\
  exists s, construct T_float 2 vals = Ok s /\
    LutBinarySearch T_float 2 s 0x3FA00000 = Ok 2.
Proof. cbv zeta. split; [reflexivity|]. split; [reflexivity|]. eexists. split; reflexivity. Qed.

(** The general results at work on the first scenario. *)
Example scenario_unsigned_present :
  LutBinarySearch T_uint32 2
    {| Lut := [0; 0; 0; 0; 0]; Vals := [1; 3; 3; 5; 7; 9]; LutEnd := 0 |} 3 = Ok 1.
Proof.
  apply (LutBinarySearch_present T_uint32 2 [1; 3; 3; 5; 7; 9]); try reflexivity.
  - split; [repeat constructor|vm_compute; discriminate].
  - repeat constructor.
  - intros k a Hk. assert (k = 0) as -> by lia. now intros [= <-].
  - left. lia.
Qed.

(** * The properties of the specification

    The statements of the specification, each against the code. *)

(** ** The order-preserving mapping *)

(** Claim C5.  For values [a < b] of any of the three supported element
    types (for [float], the comparison is false as soon as one of them is
    a NaN), [MapValue a < MapValue b], both mapped keys being unsigned
    32-bit integers. *)
Theorem MapValue_order_preserving (T : Pod32) (a b : Z) :
  in_domain T a = true -> in_domain T b = true ->
  less T a b = true ->
  0 <= MapValue T a < MapValue T b /\ MapValue T b < 2 ^ 32.
Proof.
  intros Ha Hb Hlt.
  pose proof (MapValue_range T a Ha). pose proof (MapValue_range T b Hb).
  pose proof (MapValue_lt T a b Ha Hb Hlt). lia.
Qed.

(** -3.5 < 1.25 as floats. *)
Lemma MapValue_order_preserving_witness :
  less T_float 0xC0600000 0x3FA00000 = true /\
  0 <= MapValue T_float 0xC0600000 < MapValue T_float 0x3FA00000 /\
  MapValue T_float 0x3FA00000 < 2 ^ 32.
Proof.
  split; [reflexivity|].
  apply (MapValue_order_preserving T_float 0xC0600000 0x3FA00000); reflexivity.
Defined.

(** ** The lookup table *)

(** Claim C8.  In every constructed [SearchPod32], the values of the
    lookup table are non-decreasing along the bucket indices
    [0 .. 2^LUT_BITS - 1].  (The array need not even be sorted; the table
    has one more element after the buckets, see [Lut_trailing_entry].) *)
Theorem Lut_non_decreasing (T : Pod32) (LUT_BITS : Z) (vals : list Z)
    (s : SearchPod32) (i j : Z) :
  well_formed T vals ->
  construct T LUT_BITS vals = Ok s ->
  0 <= i <= j -> j < 2 ^ LUT_BITS ->
  exists x y, Vec.get (Lut s) i = Ok x /\ Vec.get (Lut s) j = Ok y /\ x <= y.
Proof.
  intros Hwf Hc Hij Hj.
  destruct (construct_inv T LUT_BITS vals s Hwf Hc) as [_ Hsz _ _ Hmo _ _].
  destruct (get_in_range (Lut s) i) as [x Hx]; [lia|].
  destruct (get_in_range (Lut s) j) as [y Hy]; [lia|].
  exists x, y. repeat split; try assumption.
  apply (Hmo i j); auto with lia.
Qed.

Lemma Lut_non_decreasing_witness :
  exists x y,
    Vec.get [0; 1; 1; 2; 0] 1 = Ok x /\ Vec.get [0; 1; 1; 2; 0] 3 = Ok y /\ x <= y.
Proof.
  apply (Lut_non_decreasing T_uint32 2 [0; 0x80000000; 0xC0000000; 0xC0000001]
           {| Lut := [0; 1; 1; 2; 0];
              Vals := [0; 0x80000000; 0xC0000000; 0xC0000001];
              LutEnd := 3 |} 1 3).
  - split; [repeat constructor|vm_compute; discriminate].
  - reflexivity.
  - lia.
  - reflexivity.
Defined.

(** The additional last element of the table is left at 0. *)
Lemma Lut_trailing_entry T LUT_BITS vals s :
  well_formed T vals -> construct T LUT_BITS vals = Ok s ->
  Vec.get (Lut s) (2 ^ LUT_BITS) = Ok 0.
Proof. intros Hwf Hc. now destruct (construct_inv T LUT_BITS vals s Hwf Hc). Qed.

(** Claim C10.  In every constructed [SearchPod32] over an array of
    length [N >= 1], the table has [2^LUT_BITS + 1] elements, each of them
    in [0, N-1], [LutEnd <= 2^LUT_BITS - 1], and for every key the
    indices [lutIdx] and [lutIdx + 1] of [LutBinarySearch] are elements of
    the table. *)
Theorem Lut_accesses_in_bounds (T : Pod32) (LUT_BITS : Z) (vals : list Z)
    (s : SearchPod32) :
  well_formed T vals -> 1 <= Vec.size vals ->
  construct T LUT_BITS vals = Ok s ->
  Vec.size (Lut s) = 2 ^ LUT_BITS + 1 /\
  Forall (fun x => 0 <= x <= Vec.size vals - 1) (Lut s) /\
  0 <= LutEnd s <= 2 ^ LUT_BITS - 1 /\
  forall key, in_domain T key = true ->
    let lutIdx := Z.shiftr (MapValue T key) (32 - LUT_BITS) in
    (exists start, Vec.get (Lut s) lutIdx = Ok start) /\
    (exists next, Vec.get (Lut s) (Int.to_uint32 (lutIdx + 1)) = Ok next).
Proof.
  intros Hwf HN Hc. pose proof (construct_LUT_BITS _ _ _ _ Hc) as HB.
  destruct (construct_inv T LUT_BITS vals s Hwf Hc) as [_ Hsz Hend Hen _ _ _].
  split; [assumption|]. split; [|split; [lia|]].
  - apply Forall_lookup. intros k x Hk.
    assert (Hg : Vec.get (Lut s) (Z.of_nat k) = Ok x).
    { apply get_Ok. rewrite Nat2Z.id. split; [|assumption].
      apply lookup_lt_Some in Hk. unfold Vec.size. lia. }
    apply Hen in Hg. lia.
  - intros key Hkey lutIdx.
    pose proof (lutIndex_range T LUT_BITS key ltac:(lia) Hkey) as Hr.
    fold (lutIndex T LUT_BITS key) in lutIdx. fold lutIdx in Hr.
    assert (2 ^ LUT_BITS <= 2 ^ 30) by (apply Z.pow_le_mono_r; lia).
    rewrite IntFacts.to_uint32_small by lia.
    split; apply get_in_range; lia.
Qed.

Lemma Lut_accesses_in_bounds_witness :
  Vec.size [0; 1; 1; 2; 0] = 2 ^ 2 + 1 /\
  Forall (fun x => 0 <= x <= 4 - 1) [0; 1; 1; 2; 0] /\
  0 <= 3 <= 2 ^ 2 - 1 /\
  forall key, in_domain T_uint32 key = true ->
    let lutIdx := Z.shiftr (MapValue T_uint32 key) (32 - 2) in
    (exists start, Vec.get [0; 1; 1; 2; 0] lutIdx = Ok start) /\
    (exists next, Vec.get [0; 1; 1; 2; 0] (Int.to_uint32 (lutIdx + 1)) = Ok next).
Proof.
  apply (Lut_accesses_in_bounds T_uint32 2 [0; 0x80000000; 0xC0000000; 0xC0000001]
           {| Lut := [0; 1; 1; 2; 0];
              Vals := [0; 0x80000000; 0xC0000000; 0xC0000001];
              LutEnd := 3 |}).
  - split; [repeat constructor|vm_compute; discriminate].
  - vm_compute; discriminate.
  - reflexivity.
Defined.

(** ** The narrowed interval *)

(** Claim C6, as stated, fails: over [0; 0x80000000; 0x80000001] with
    [LUT_BITS = 1] ([Lut = 0; 1; 0], [LutEnd = 1]) the key 0 selects
    bucket 0, [bucket + 1 > LutEnd] is false, and yet the interval end is
    [N - 1 = 2], not [Lut[1] - 1 = 0]. *)
Lemma LutIntervalEnd_not_as_specified :
  let vals := [0; 0x80000000; 0x80000001] in
  let s := {| Lut := [0; 1; 0]; Vals := vals; LutEnd := 1 |} in
  let bucket := lutIndex T_uint32 1 0 in
  construct T_uint32 1 vals = Ok s /\
  ~ bucket + 1 > LutEnd s /\
  LutIntervalEnd s bucket = Ok (Vec.size vals - 1) /\
  specified_interval_end s bucket = Ok 0 /\
  LutIntervalEnd s bucket <> specified_interval_end s bucket.
Proof.
  cbv zeta. split; [reflexivity|]. split; [vm_compute; discriminate|].
  split; [reflexivity|]. split; [reflexivity|]. vm_compute. discriminate.
Qed.

(** Claim C6, amended.  For every constructed [SearchPod32] over an
    array of length [N] and every key with
    [bucket = mappedKey >> (32 - LUT_BITS)], the interval end used by
    [LutBinarySearch] equals [N - 1] (computed in [size_t]) exactly when
    [bucket + 1 >= LutEnd], and equals [Lut[bucket + 1] - 1] otherwise. *)
Theorem LutIntervalEnd_spec (T : Pod32) (LUT_BITS : Z) (vals : list Z)
    (s : SearchPod32) (key : Z) :
  well_formed T vals -> in_domain T key = true ->
  construct T LUT_BITS vals = Ok s ->
  let bucket := Z.shiftr (MapValue T key) (32 - LUT_BITS) in
  exists e, LutIntervalEnd s bucket = Ok e /\
    (e = Int.to_size_t (Vec.size vals - 1) <-> bucket + 1 >= LutEnd s) /\
    (bucket + 1 < LutEnd s ->
     exists next, Vec.get (Lut s) (bucket + 1) = Ok next /\ e = next - 1).
Proof.
  intros Hwf Hkey Hc bucket.
  pose proof (vals_size_bound T vals Hwf) as Hb.
  destruct (LutIntervalEnd_cases T LUT_BITS vals s key Hwf Hkey Hc)
    as (e & He & [[Hge ->]|(Hlt & next & Hn & Hr & ->)]).
  - exists (Int.to_size_t (Vec.size vals - 1)).
    split; [exact He|]. split; [tauto|]. unfold bucket, lutIndex in *. lia.
  - exists (next - 1). split; [exact He|]. split.
    + rewrite IntFacts.to_size_t_small by lia.
      unfold bucket, lutIndex in *. lia.
    + intros _. exists next. auto.
Qed.

Lemma LutIntervalEnd_spec_witness :
  let s := {| Lut := [0; 1; 0]; Vals := [0; 0x80000000; 0x80000001]; LutEnd := 1 |} in
  let bucket := Z.shiftr (MapValue T_uint32 0) (32 - 1) in
  exists e, LutIntervalEnd s bucket = Ok e /\
    (e = Int.to_size_t (Vec.size [0; 0x80000000; 0x80000001] - 1)
     <-> bucket + 1 >= LutEnd s) /\
    (bucket + 1 < LutEnd s ->
     exists next, Vec.get (Lut s) (bucket + 1) = Ok next /\ e = next - 1).
Proof.
  apply (LutIntervalEnd_spec T_uint32 1 [0; 0x80000000; 0x80000001]
           {| Lut := [0; 1; 0]; Vals := [0; 0x80000000; 0x80000001]; LutEnd := 1 |} 0).
  - split; [repeat constructor|vm_compute; discriminate].
  - reflexivity.
  - reflexivity.
Defined.

(** ** Where the code leaves the specification

    Each statement below runs the code on one array. *)

(** Claim C1 at the signed array of the specification's own scenario,
    [Vals = -5; -1; 0; 2; 8] ([int32_t], [LUT_BITS = 2]), and the key
    [-5], which occurs at index 0: [StdBinarySearch] and [MyBinarySearch]
    return 0, [LutBinarySearch] returns 1, and [Vals[1]] is not the key.
    [InitLut] starts from [thresh = 0] and looks at [Vals[1]] onwards
    only, so that the entry of the bucket of [Vals[0]] (here
    [Lut[1] = 1]) lies past index 0. *)
Theorem LutBinarySearch_first_element :
  let vals := [-5; -1; 0; 2; 8] in
  let key := -5 in
  let s := {| Lut := [0; 1; 2; 2; 0]; Vals := vals; LutEnd := 2 |} in
  sorted T_int32 vals /\ Vec.get vals 0 = Ok key /\
  construct T_int32 2 vals = Ok s /\
  StdBinarySearch T_int32 s key = Ok 0 /\
  MyBinarySearch T_int32 s key = Ok 0 /\
  LutBinarySearch T_int32 2 s key = Ok 1 /\
  Vec.get vals 1 = Ok (-1) /\ equal_to T_int32 (-1) key = false.
Proof. cbv zeta. repeat split; reflexivity. Qed.

(** Claim C2 at [Vals = 1; 3; 3; 5; 7; 9] ([uint32_t], [LUT_BITS = 2])
    and the key 4, which does not occur: [StdBinarySearch] returns -1,
    but [MyBinarySearch] and [LutBinarySearch] return 3, the position
    where the shared [BinarySearch] converged: it returns [__first]
    before it reaches the comparison of [Vals[left]] with the key. *)
Theorem BinarySearch_absent_key :
  let vals := [1; 3; 3; 5; 7; 9] in
  let key := 4 in
  let s := {| Lut := [0; 0; 0; 0; 0]; Vals := vals; LutEnd := 0 |} in
  sorted T_uint32 vals /\ occurs T_uint32 vals key = false /\
  construct T_uint32 2 vals = Ok s /\
  StdBinarySearch T_uint32 s key = Ok not_found /\
  MyBinarySearch T_uint32 s key = Ok 3 /\
  LutBinarySearch T_uint32 2 s key = Ok 3.
Proof. cbv zeta. repeat split; reflexivity. Qed.

(** Claim C3 at [Vals = -5; -1; 0; 2; 8] ([int32_t], [LUT_BITS = 2]):
    the buckets of the elements are 1, 1, 2, 2, 2 and [LutEnd = 2];
    [Lut[1] = 1], whereas the first element whose bucket is [>= 1] is at
    index 0. *)
Theorem Lut_entry_skips_first_element :
  let vals := [-5; -1; 0; 2; 8] in
  let s := {| Lut := [0; 1; 2; 2; 0]; Vals := vals; LutEnd := 2 |} in
  sorted T_int32 vals /\
  construct T_int32 2 vals = Ok s /\
  map (lutIndex T_int32 2) vals = [1; 1; 2; 2; 2] /\
  1 <= LutEnd s /\
  Vec.get (Lut s) 1 = Ok 1 /\
  first_at_or_after T_int32 2 vals 1 = 0.
Proof. cbv zeta. repeat split; try reflexivity; vm_compute; discriminate. Qed.

(** Claim C4 at the empty array ([uint32_t], [LUT_BITS = 2], key 5):
    construction succeeds and [StdBinarySearch] returns -1, but
    [MyBinarySearch] and [LutBinarySearch] call [BinarySearch] with
    [right = -1]: [__len = right - left] wraps to [2^64 - 1] and the first
    iteration reads [Vals[2^63 - 1]]. *)
Theorem BinarySearch_empty_array :
  let s := {| Lut := [0; 0; 0; 0; 0]; Vals := []; LutEnd := 0 |} in
  construct T_uint32 2 [] = Ok s /\
  StdBinarySearch T_uint32 s 5 = Ok not_found /\
  MyBinarySearch T_uint32 s 5 = Fault OutOfBounds /\
  LutBinarySearch T_uint32 2 s 5 = Fault OutOfBounds /\
  Int.to_size_t (Int.to_ssize_t (-1 - 0)) = 2 ^ 64 - 1 /\
  Vec.get (Vals s) (Int.to_size_t (0 + Z.shiftr (2 ^ 64 - 1) 1)) = Fault OutOfBounds.
Proof. cbv zeta. repeat split; reflexivity. Qed.

(** Claim C7 at [Vals = -5; -5; -1; 0; 2; 8] ([int32_t],
    [LUT_BITS = 2]): the key [-5] occurs at indices 0 and 1;
    [StdBinarySearch] and [MyBinarySearch] return 0, [LutBinarySearch]
    returns 1. *)
Theorem LutBinarySearch_duplicates :
  let vals := [-5; -5; -1; 0; 2; 8] in
  let key := -5 in
  let s := {| Lut := [0; 1; 3; 3; 0]; Vals := vals; LutEnd := 2 |} in
  sorted T_int32 vals /\
  Vec.get vals 0 = Ok key /\ Vec.get vals 1 = Ok key /\
  construct T_int32 2 vals = Ok s /\
  StdBinarySearch T_int32 s key = Ok 0 /\
  MyBinarySearch T_int32 s key = Ok 0 /\
  LutBinarySearch T_int32 2 s key = Ok 1.
Proof. cbv zeta. repeat split; reflexivity. Qed.

(** Claim C9 at [Vals = -2000000000; 1; 1500000000] ([int32_t],
    [LUT_BITS = 2]) and the key [-5]: the elements are in the buckets 0,
    2 and 3, the key maps to bucket 1, which holds no element, and
    [Lut[1] = Lut[2] = 1].  [LutBinarySearch] calls [BinarySearch] with
    [left = 1] and [right = Lut[2] - 1 = 0]: [__len] wraps to [2^64 - 1]
    and the first iteration reads [Vals[2^63]].  ([MyBinarySearch]
    returns 1.) *)
Theorem LutBinarySearch_empty_bucket :
  let vals := [-2000000000; 1; 1500000000] in
  let key := -5 in
  let s := {| Lut := [0; 1; 1; 2; 0]; Vals := vals; LutEnd := 3 |} in
  sorted T_int32 vals /\ 1 <= Vec.size vals /\
  construct T_int32 2 vals = Ok s /\
  map (lutIndex T_int32 2) vals = [0; 2; 3] /\ lutIndex T_int32 2 key = 1 /\
  Vec.get (Lut s) (lutIndex T_int32 2 key) = Ok 1 /\
  LutIntervalEnd s (lutIndex T_int32 2 key) = Ok 0 /\
  BinarySearch T_int32 vals 1 0 key = Fault OutOfBounds /\
  Int.to_size_t (1 + Z.shiftr (Int.to_size_t (Int.to_ssize_t (0 - 1))) 1) = 2 ^ 63 /\
  LutBinarySearch T_int32 2 s key = Fault OutOfBounds /\
  MyBinarySearch T_int32 s key = Ok 1.
Proof. cbv zeta. repeat split; try reflexivity; vm_compute; discriminate. Qed.

(** * Further properties of the code

    Properties of the functions above that the code shows by itself. *)

(** ** [MapValue] *)

(** Property X1.  [MapValue] is a bijection between the values of each
    supported type (for [float], the 32-bit patterns) and the unsigned
    32-bit integers: every [k] in [0, 2^32) is the mapped key of exactly
    one value. *)
Theorem MapValue_bijective (T : Pod32) (k : Z) :
  0 <= k < 2 ^ 32 ->
  exists v, in_domain T v = true /\ MapValue T v = k /\
    forall v', in_domain T v' = true -> MapValue T v' = k -> v' = v.
Proof.
  intros Hk. destruct T.
  - exists k. split; [now apply in_domain_uint32|]. split; [reflexivity|].
    intros v' _ H. exact H.
  - exists (k - 2 ^ 31).
    assert (Hd : - 2 ^ 31 <= k - 2 ^ 31 < 2 ^ 31) by lia.
    split; [now apply in_domain_int32|].
    split; [rewrite MapValue_int32; lia|].
    intros v' Hv' H. apply in_domain_int32 in Hv'.
    rewrite MapValue_int32 in H by assumption. lia.
  - destruct (Z.lt_ge_cases k (2 ^ 31)) as [Hlow|Hhigh].
    + exists (2 ^ 32 - 1 - k).
      split; [apply in_domain_float; lia|].
      split; [rewrite MapValue_float_negative; lia|].
      intros v' Hv' H. apply in_domain_float in Hv'.
      destruct (Z.lt_ge_cases v' (2 ^ 31)).
      * rewrite MapValue_float_positive in H; lia.
      * rewrite MapValue_float_negative in H; lia.
    + exists (k - 2 ^ 31).
      split; [apply in_domain_float; lia|].
      split; [rewrite MapValue_float_positive; lia|].
      intros v' Hv' H. apply in_domain_float in Hv'.
      destruct (Z.lt_ge_cases v' (2 ^ 31)).
      * rewrite MapValue_float_positive in H; lia.
      * rewrite MapValue_float_negative in H; lia.
Qed.

Lemma MapValue_bijective_witness :
  exists v, in_domain T_float v = true /\ MapValue T_float v = 0x3F9FFFFF /\
    forall v', in_domain T_float v' = true -> MapValue T_float v' = 0x3F9FFFFF ->
               v' = v.
Proof. apply (MapValue_bijective T_float 0x3F9FFFFF). lia. Defined.

(** Property X2.  Flipping the sign bit of a signed integer adds [2^31]
    to it: [MapValue<int32_t>(v) = v + 2^31] (offset binary). *)
Theorem MapValue_int32_offset (v : Z) :
  in_domain T_int32 v = true -> MapValue T_int32 v = v + 2 ^ 31.
Proof. intros H. apply MapValue_int32. now apply in_domain_int32. Qed.

Lemma MapValue_int32_offset_witness :
  MapValue T_int32 (-5) = -5 + 2 ^ 31.
Proof. apply (MapValue_int32_offset (-5)). reflexivity. Defined.

(** Property X3.  On a [float] with the sign bit clear the mask is
    [0x80000000] and the mapped key is the pattern plus [2^31]; with the
    sign bit set the mask is [0xFFFFFFFF] and the mapped key is the
    complement [2^32 - 1 - cv] of the pattern.  Positive floats land in
    the upper half of the keys, negative ones in the lower half. *)
Theorem MapValue_float_halves (cv : Z) :
  in_domain T_float cv = true ->
  (cv < 2 ^ 31 -> MapValue T_float cv = cv + 2 ^ 31 /\
                  2 ^ 31 <= MapValue T_float cv < 2 ^ 32) /\
  (2 ^ 31 <= cv -> MapValue T_float cv = 2 ^ 32 - 1 - cv /\
                   0 <= MapValue T_float cv < 2 ^ 31).
Proof.
  intros H. apply in_domain_float in H. split; intros Hc.
  - rewrite MapValue_float_positive by lia. lia.
  - rewrite MapValue_float_negative by lia. lia.
Qed.

(** -3.5 *)
Lemma MapValue_float_halves_witness :
  (0xC0600000 < 2 ^ 31 ->
   MapValue T_float 0xC0600000 = 0xC0600000 + 2 ^ 31 /\
   2 ^ 31 <= MapValue T_float 0xC0600000 < 2 ^ 32) /\
  (2 ^ 31 <= 0xC0600000 ->
   MapValue T_float 0xC0600000 = 2 ^ 32 - 1 - 0xC0600000 /\
   0 <= MapValue T_float 0xC0600000 < 2 ^ 31).
Proof. apply (MapValue_float_halves 0xC0600000). reflexivity. Defined.

(** The mapped key of a canonical value grows strictly with its rank. *)
Lemma MapValue_rank_lt T a b :
  canonical T a = true -> canonical T b = true ->
  (MapValue T a <? MapValue T b) = (rank T a <? rank T b) /\
  (MapValue T a =? MapValue T b) = (rank T a =? rank T b).
Proof.
  intros Ha Hb. rewrite !MapValue_rank by assumption.
  destruct T;
    try destruct (Z.ltb_spec (rank T_float a) 0);
    try destruct (Z.ltb_spec (rank T_float b) 0);
    split; zcases; lia.
Qed.

(** Property X4.  On values other than NaN and the negative zero, [<] and
    [==] of the element type are [<] and [==] of the mapped keys: the
    comparisons of the search can be read off the keys. *)
Theorem MapValue_order_isomorphism (T : Pod32) (a b : Z) :
  canonical T a = true -> canonical T b = true ->
  less T a b = (MapValue T a <? MapValue T b) /\
  equal_to T a b = (MapValue T a =? MapValue T b).
Proof.
  intros Ha Hb.
  destruct (MapValue_rank_lt T a b Ha Hb) as [-> ->].
  split; [apply less_rank|apply equal_to_rank]; now apply canonical_comparable.
Qed.

(** 1.25 and 1000.0 *)
Lemma MapValue_order_isomorphism_witness :
  less T_float 0x3FA00000 0x447A0000
    = (MapValue T_float 0x3FA00000 <? MapValue T_float 0x447A0000) /\
  equal_to T_float 0x3FA00000 0x447A0000
    = (MapValue T_float 0x3FA00000 =? MapValue T_float 0x447A0000).
Proof.
  apply (MapValue_order_isomorphism T_float 0x3FA00000 0x447A0000); reflexivity.
Defined.

(** Property X5.  Along a sorted array without NaN and negative zero the
    LUT entries selected by the elements ([mappedKey >> (32 - LUT_BITS)])
    do not decrease, and each is below [2^LUT_BITS]. *)
Theorem buckets_non_decreasing (T : Pod32) (LUT_BITS : Z) (vals : list Z)
    (i j a b : Z) :
  1 <= LUT_BITS <= 31 -> sorted T vals -> all_canonical T vals -> i <= j ->
  Vec.get vals i = Ok a -> Vec.get vals j = Ok b ->
  0 <= lutIndex T LUT_BITS a <= lutIndex T LUT_BITS b /\
  lutIndex T LUT_BITS b < 2 ^ LUT_BITS.
Proof.
  intros HB Hs Hc Hij Hi Hj.
  pose proof (sorted_buckets T LUT_BITS vals i j a b HB Hs Hc Hij Hi Hj).
  assert (Hd : forall k v, Vec.get vals k = Ok v -> in_domain T v = true).
  { intros k v Hk. apply get_Ok in Hk as [_ Hk].
    unfold all_canonical in Hc. rewrite Forall_lookup in Hc.
    eapply canonical_in_domain; eauto. }
  pose proof (lutIndex_range T LUT_BITS a HB (Hd _ _ Hi)).
  pose proof (lutIndex_range T LUT_BITS b HB (Hd _ _ Hj)). lia.
Qed.

Lemma buckets_non_decreasing_witness :
  0 <= lutIndex T_int32 2 (-5) <= lutIndex T_int32 2 2 /\
  lutIndex T_int32 2 2 < 2 ^ 2.
Proof.
  apply (buckets_non_decreasing T_int32 2 [-5; -1; 0; 2; 8] 0 3 (-5) 2);
    try reflexivity; try lia.
  repeat constructor.
Defined.

(** ** Construction *)

(** Property X6.  The constructor yields an index exactly for [LUT_BITS]
    from 1 to 30, and then whatever the order of the array: the table has
    [2^LUT_BITS + 1] elements and no write of [InitLut] leaves it.  At
    [LUT_BITS = 31] the size [(1<<31)+1], computed in [int], is negative
    and [resize] throws; any other value fails the [static_assert]. *)
Theorem construct_outcome (T : Pod32) (LUT_BITS : Z) (vals : list Z) :
  well_formed T vals ->
  (1 <= LUT_BITS <= 30 ->
   exists s, construct T LUT_BITS vals = Ok s /\ Vals s = vals /\
             Vec.size (Lut s) = 2 ^ LUT_BITS + 1) /\
  (LUT_BITS = 31 -> construct T LUT_BITS vals = Fault LengthError) /\
  (LUT_BITS < 1 \/ 31 < LUT_BITS ->
   construct T LUT_BITS vals = Fault StaticAssert).
Proof.
  intros Hwf. split; [|split].
  - intros HB. destruct (construct_Ok T LUT_BITS vals HB Hwf) as (s & Hs & Hinv).
    exists s. destruct Hinv. auto.
  - intros ->. apply construct_31.
  - intros HB. unfold construct. rewrite Z.gtb_ltb.
    destruct (Z.ltb_spec 0 LUT_BITS), (Z.ltb_spec LUT_BITS 32); try reflexivity; lia.
Qed.

Lemma construct_outcome_witness :
  (1 <= 2 <= 30 ->
   exists s, construct T_int32 2 [8; -5; 2] = Ok s /\ Vals s = [8; -5; 2] /\
             Vec.size (Lut s) = 2 ^ 2 + 1) /\
  (2 = 31 -> construct T_int32 2 [8; -5; 2] = Fault LengthError) /\
  (2 < 1 \/ 31 < 2 -> construct T_int32 2 [8; -5; 2] = Fault StaticAssert).
Proof.
  apply (construct_outcome T_int32 2 [8; -5; 2]).
  split; [repeat constructor|vm_compute; discriminate].
Defined.

(** The last loop of [InitLut]. *)
Lemma InitLut_tail T LUT_BITS vals s :
  1 <= LUT_BITS <= 30 -> well_formed T vals ->
  InitLut T LUT_BITS vals = Ok s ->
  exists last,
    (forall j, LutEnd s <= j < 2 ^ LUT_BITS -> Vec.get (Lut s) j = Ok last) /\
    (forall k x, Vec.get (Lut s) k = Ok x -> x <= last).
Proof.
  intros HB Hwf. pose proof (vals_size_bound T vals Hwf) as Hb.
  assert (Hpow : 2 ^ 1 <= 2 ^ LUT_BITS <= 2 ^ 30)
    by (split; apply Z.pow_le_mono_r; lia).
  unfold InitLut. rewrite Lut_size by assumption.
  destruct (resize_Ok (2 ^ LUT_BITS + 1)) as (lut0 & -> & Hs0 & Hg0);
    [rewrite max_size_8; lia|]. cbn [bind].
  rewrite IntFacts.to_ssize_t_small by lia.
  set (n := Z.to_nat (Vec.size vals - 1)).
  destruct (InitLut_for_Ok T LUT_BITS vals HB Hwf n 0
              {| st_Lut := lut0; st_thresh := 0; st_last := 0 |})
    as (st & -> & [Hsz Hth Hla Hlp Hen Hmo Hpo Htr]); [lia|lia| |].
  { constructor; cbn [st_Lut st_thresh st_last]; try lia.
    - intros k x Hk. pose proof (get_bounds _ _ _ Hk) as Hr.
      rewrite Hg0 in Hk by lia. injection Hk as <-. lia.
    - intros a b x y _ Ha Hb'.
      pose proof (get_bounds _ _ _ Ha). pose proof (get_bounds _ _ _ Hb').
      rewrite Hg0 in Ha, Hb' by lia. injection Ha as <-. injection Hb' as <-. lia.
    - apply Hg0. lia. }
  cbn [bind]. rewrite Hsz.
  replace (2 ^ LUT_BITS + 1 - 1) with (2 ^ LUT_BITS) by lia.
  rewrite IntFacts.to_size_t_small by lia.
  destruct (fill_range_Ok (st_thresh st) (2 ^ LUT_BITS) (st_last st) (st_Lut st))
    as (lut & -> & Hs & Hg); [lia|lia|]. cbn [bind].
  intros [= <-]. cbn [Lut LutEnd]. exists (st_last st). split.
  - intros j Hj. rewrite Hg. zcases; try lia. reflexivity.
  - intros k x. rewrite Hg. intros Hk. zcases; use_inv.
Qed.

(** Property X7.  In every constructed index the elements of the table
    from [LutEnd] to [2^LUT_BITS - 1] all hold one value, the largest of
    the table (the start of the last run found), and the additional
    element [2^LUT_BITS] is never written: it holds 0. *)
Theorem Lut_tail (T : Pod32) (LUT_BITS : Z) (vals : list Z) (s : SearchPod32) :
  well_formed T vals -> construct T LUT_BITS vals = Ok s ->
  exists last,
    (forall j, LutEnd s <= j < 2 ^ LUT_BITS -> Vec.get (Lut s) j = Ok last) /\
    (forall k x, Vec.get (Lut s) k = Ok x -> x <= last) /\
    Vec.get (Lut s) (2 ^ LUT_BITS) = Ok 0.
Proof.
  intros Hwf Hc. pose proof (construct_LUT_BITS _ _ _ _ Hc) as HB.
  destruct (construct_inv T LUT_BITS vals s Hwf Hc) as [_ _ _ _ _ _ Htr].
  unfold construct in Hc. rewrite Z.gtb_ltb in Hc.
  destruct (Z.ltb_spec 0 LUT_BITS), (Z.ltb_spec LUT_BITS 32); try lia.
  cbn [andb] in Hc.
  destruct (InitLut_tail T LUT_BITS vals s HB Hwf Hc) as (last & H1 & H2).
  exists last. auto.
Qed.

Lemma Lut_tail_witness :
  let s := {| Lut := [0; 1; 2; 2; 0]; Vals := [-5; -1; 0; 2; 8]; LutEnd := 2 |} in
  exists last,
    (forall j, LutEnd s <= j < 2 ^ 2 -> Vec.get (Lut s) j = Ok last) /\
    (forall k x, Vec.get (Lut s) k = Ok x -> x <= last) /\
    Vec.get (Lut s) (2 ^ 2) = Ok 0.
Proof.
  apply (Lut_tail T_int32 2 [-5; -1; 0; 2; 8]).
  - split; [repeat constructor|vm_compute; discriminate].
  - reflexivity.
Defined.

(** The table of an array of at most one element. *)
Lemma Lut_short_array_zero (T : Pod32) (LUT_BITS : Z) (vals : list Z)
    (s : SearchPod32) :
  well_formed T vals -> Vec.size vals <= 1 ->
  construct T LUT_BITS vals = Ok s ->
  LutEnd s = 0 /\ Forall (fun x => x = 0) (Lut s).
Proof.
  intros Hwf HN Hc. pose proof (construct_LUT_BITS _ _ _ _ Hc) as HB.
  destruct (construct_inv T LUT_BITS vals s Hwf Hc) as [_ Hsz Hend Hen _ Hpo _].
  assert (2 ^ 1 <= 2 ^ LUT_BITS) by (apply Z.pow_le_mono_r; lia).
  split.
  - destruct (Z.eq_dec (LutEnd s) 0) as [|Hne]; [assumption|].
    destruct (get_in_range (Lut s) 1) as [x Hx]; [lia|].
    pose proof (Hpo 1 x ltac:(lia) Hx). pose proof (Hen _ _ Hx). lia.
  - apply Forall_lookup. intros k x Hk.
    assert (Hg : Vec.get (Lut s) (Z.of_nat k) = Ok x).
    { apply get_Ok. rewrite Nat2Z.id. split; [|assumption].
      apply lookup_lt_Some in Hk. unfold Vec.size. lia. }
    apply Hen in Hg. lia.
Qed.

(** Property X8.  Over an array of at most one element the first loop of
    [InitLut] does not run: [LutEnd] is 0 and every element of the table
    is 0, so that [LutBinarySearch] narrows nothing. *)
Theorem Lut_of_short_array (T : Pod32) (LUT_BITS : Z) (vals : list Z)
    (s : SearchPod32) :
  well_formed T vals -> Vec.size vals <= 1 ->
  construct T LUT_BITS vals = Ok s ->
  LutEnd s = 0 /\ Forall (fun x => x = 0) (Lut s).
Proof. apply Lut_short_array_zero. Qed.

Lemma Lut_of_short_array_witness :
  let s := {| Lut := [0; 0; 0]; Vals := [7]; LutEnd := 0 |} in
  LutEnd s = 0 /\ Forall (fun x => x = 0) (Lut s).
Proof.
  apply (Lut_of_short_array T_uint32 1 [7]).
  - split; [repeat constructor|vm_compute; discriminate].
  - vm_compute; discriminate.
  - reflexivity.
Defined.

(** ** The table of a sorted array *)

(** Property X9.  Over a sorted array without NaN and negative zero,
    [Lut[0]] is 0 and, for [j] from 1 to [LutEnd], [Lut[j]] is an index
    [x >= 1] of the array such that [Vals[x]] is in a bucket [>= j] and
    every element from index 1 to [x - 1] is in a bucket [< j]: the first
    such element, not counting [Vals[0]]. *)
Theorem Lut_entries_sorted (T : Pod32) (LUT_BITS : Z) (vals : list Z)
    (s : SearchPod32) :
  well_formed T vals -> all_canonical T vals -> sorted T vals ->
  construct T LUT_BITS vals = Ok s ->
  Vec.get (Lut s) 0 = Ok 0 /\
  forall j, 1 <= j <= LutEnd s ->
    exists x a,
      Vec.get (Lut s) j = Ok x /\ 1 <= x /\
      Vec.get vals x = Ok a /\ j <= lutIndex T LUT_BITS a /\
      forall k b, 1 <= k < x -> Vec.get vals k = Ok b -> lutIndex T LUT_BITS b < j.
Proof.
  intros Hwf Hcan Hsorted Hc.
  pose proof (construct_LUT_BITS _ _ _ _ Hc) as HB.
  destruct (construct_inv T LUT_BITS vals s Hwf Hc) as [_ Hsz Hend _ _ _ _].
  destruct (construct_sorted T LUT_BITS vals HB Hwf
              (fun i j a b => sorted_buckets T LUT_BITS vals i j a b
                                ltac:(lia) Hsorted Hcan)
              s Hc) as [Hz Hfirst _].
  split; [assumption|]. intros j Hj.
  destruct (get_in_range (Lut s) j) as [x Hx]; [lia|].
  destruct (Hfirst j x Hj Hx) as (Hx1 & (a & Ha & Hba) & Hbefore).
  exists x, a. auto.
Qed.

Lemma Lut_entries_sorted_witness :
  let vals := [-5; -1; 0; 2; 8] in
  let s := {| Lut := [0; 1; 2; 2; 0]; Vals := vals; LutEnd := 2 |} in
  Vec.get (Lut s) 0 = Ok 0 /\
  forall j, 1 <= j <= LutEnd s ->
    exists x a,
      Vec.get (Lut s) j = Ok x /\ 1 <= x /\
      Vec.get vals x = Ok a /\ j <= lutIndex T_int32 2 a /\
      forall k b, 1 <= k < x -> Vec.get vals k = Ok b -> lutIndex T_int32 2 b < j.
Proof.
  apply (Lut_entries_sorted T_int32 2 [-5; -1; 0; 2; 8]).
  - split; [repeat constructor|vm_compute; discriminate].
  - repeat constructor.
  - reflexivity.
  - reflexivity.
Defined.

(** Property X10.  Over a sorted array of at least two elements without
    NaN and negative zero, [LutEnd] is the bucket of the last element. *)
Theorem LutEnd_last_bucket (T : Pod32) (LUT_BITS : Z) (vals : list Z)
    (s : SearchPod32) (v : Z) :
  well_formed T vals -> all_canonical T vals -> sorted T vals ->
  construct T LUT_BITS vals = Ok s ->
  2 <= Vec.size vals -> Vec.get vals (Vec.size vals - 1) = Ok v ->
  LutEnd s = lutIndex T LUT_BITS v.
Proof.
  intros Hwf Hcan Hsorted Hc HN Hv.
  pose proof (construct_LUT_BITS _ _ _ _ Hc) as HB.
  destruct (construct_inv T LUT_BITS vals s Hwf Hc) as [_ Hsz Hend _ _ _ _].
  pose proof (fun i j a b => sorted_buckets T LUT_BITS vals i j a b
                               ltac:(lia) Hsorted Hcan) as Hbk.
  destruct (construct_sorted T LUT_BITS vals HB Hwf Hbk s Hc) as [_ Hfirst Hhi].
  pose proof (Hhi (Vec.size vals - 1) v ltac:(lia) Hv) as Hle.
  destruct (Z.eq_dec (LutEnd s) 0) as [H0|H0].
  - pose proof (lutIndex_range T LUT_BITS v ltac:(lia)
                  (vals_get_domain T vals Hwf _ _ Hv)). lia.
  - destruct (get_in_range (Lut s) (LutEnd s)) as [x Hx]; [lia|].
    destruct (Hfirst (LutEnd s) x ltac:(lia) Hx) as (_ & (a & Ha & Hba) & _).
    pose proof (get_bounds _ _ _ Ha).
    pose proof (Hbk x (Vec.size vals - 1) a v ltac:(lia) Ha Hv). lia.
Qed.

Lemma LutEnd_last_bucket_witness :
  LutEnd {| Lut := [0; 1; 2; 2; 0]; Vals := [-5; -1; 0; 2; 8]; LutEnd := 2 |}
  = lutIndex T_int32 2 8.
Proof.
  apply (LutEnd_last_bucket T_int32 2 [-5; -1; 0; 2; 8]).
  - split; [repeat constructor|vm_compute; discriminate].
  - repeat constructor.
  - reflexivity.
  - reflexivity.
  - vm_compute; discriminate.
  - reflexivity.
Defined.

(** Property X11.  Over a sorted array without NaN and negative zero whose
    first element is in bucket 0, every entry [j <= LutEnd] of the table
    is the index of the first element of the array whose bucket is at
    least [j]. *)
Theorem Lut_entries_first_in_bucket_0 (T : Pod32) (LUT_BITS : Z)
    (vals : list Z) (s : SearchPod32) (j : Z) :
  well_formed T vals -> all_canonical T vals -> sorted T vals ->
  construct T LUT_BITS vals = Ok s ->
  (forall a, Vec.get vals 0 = Ok a -> lutIndex T LUT_BITS a = 0) ->
  0 <= j <= LutEnd s ->
  Vec.get (Lut s) j = Ok (first_at_or_after T LUT_BITS vals j).
Proof.
  intros Hwf Hcan Hsorted Hc H0 Hj.
  destruct (Z.eq_dec j 0) as [->|Hne].
  - pose proof (construct_LUT_BITS _ _ _ _ Hc) as HB.
    destruct (construct_sorted T LUT_BITS vals HB Hwf
                (fun i j a b => sorted_buckets T LUT_BITS vals i j a b
                                  ltac:(lia) Hsorted Hcan)
                s Hc) as [Hz _ _].
    rewrite Hz. f_equal. destruct vals as [|v vals']; [reflexivity|].
    cbn [first_at_or_after].
    rewrite (H0 v) by (rewrite get_cons; reflexivity). reflexivity.
  - apply Lut_entry_first; try assumption; [lia|].
    intros a Ha. rewrite (H0 a Ha). lia.
Qed.

Lemma Lut_entries_first_in_bucket_0_witness :
  let vals := [-2000000000; 1; 1500000000] in
  let s := {| Lut := [0; 1; 1; 2; 0]; Vals := vals; LutEnd := 3 |} in
  Vec.get (Lut s) 2 = Ok (first_at_or_after T_int32 2 vals 2).
Proof.
  apply (Lut_entries_first_in_bucket_0 T_int32 2 [-2000000000; 1; 1500000000]).
  - split; [repeat constructor|vm_compute; discriminate].
  - repeat constructor.
  - reflexivity.
  - reflexivity.
  - intros a. rewrite get_cons. cbn. now intros [= <-].
  - cbn. lia.
Defined.

(** ** The shared binary search *)

(** Property X12.  A range of length below [2^n] is searched in at most
    [n] iterations of the loop (one more to see the length 0): the bound
    on the iterations is never the reason why the loop ends. *)
Theorem BinarySearch_while_iterations (T : Pod32) (n : nat) (vals : list Z)
    (key len first : Z) :
  (n <= 64)%nat -> 0 <= len < 2 ^ Z.of_nat n ->
  (exists r, BinarySearch_while T (S n) vals key len first = Ok r) \/
  BinarySearch_while T (S n) vals key len first = Fault OutOfBounds.
Proof.
  intros Hn Hlen.
  pose proof (BinarySearch_while_fuel T n vals key len first Hn Hlen) as Hfuel.
  assert (Hfaults : forall fuel l f e,
             BinarySearch_while T fuel vals key l f = Fault e ->
             e = OutOfBounds \/ e = OutOfFuel).
  { induction fuel as [|fuel IH]; intros l f e.
    - cbn. intros [= <-]. auto.
    - rewrite BinarySearch_while_S. cbv zeta.
      destruct (l >? 0); [|discriminate].
      destruct (Vec.get vals _) as [v|e'] eqn:E; cbn [bind].
      + destruct (less T v key); apply IH.
      + intros [= <-]. left. now apply get_Fault in E. }
  destruct (BinarySearch_while T (S n) vals key len first) as [r|e] eqn:E.
  - left. eauto.
  - right. destruct (Hfaults _ _ _ _ E) as [->| ->]; [reflexivity|contradiction].
Qed.

Lemma BinarySearch_while_iterations_witness :
  (exists r, BinarySearch_while T_uint32 4 [1; 3; 3; 5; 7; 9] 4 5 0 = Ok r) \/
  BinarySearch_while T_uint32 4 [1; 3; 3; 5; 7; 9] 4 5 0 = Fault OutOfBounds.
Proof.
  apply (BinarySearch_while_iterations T_uint32 3 [1; 3; 3; 5; 7; 9] 4 5 0);
    cbn; lia.
Defined.

(** On a range inside the array the loop stays inside the range, whatever
    the order of the elements. *)
Lemma BinarySearch_while_bounds T vals key hi fuel :
  hi <= Vec.size vals -> Vec.size vals < 2 ^ 61 ->
  forall len first,
    0 <= first -> 0 <= len < 2 ^ Z.of_nat fuel -> first + len <= hi ->
    exists r, BinarySearch_while T (S fuel) vals key len first = Ok r /\
              first <= r <= first + len.
Proof.
  intros Hhi HN. induction fuel as [|fuel IH]; intros len first Hf Hlen Hsum.
  - replace len with 0 by (cbn in Hlen; lia). exists first. cbn.
    split; [reflexivity|lia].
  - rewrite Nat2Z.inj_succ, Z.pow_succ_r in Hlen by lia.
    rewrite BinarySearch_while_S. cbv zeta. rewrite Z.gtb_ltb.
    destruct (Z.ltb_spec 0 len) as [Hpos|Hzero]; [|exists first; split; [reflexivity|lia]].
    rewrite shiftr_1_half.
    assert (Hh : 0 <= len / 2 < len /\ 0 <= len - len / 2 - 1 <= len / 2 /\
                 len / 2 < 2 ^ Z.of_nat fuel)
      by (Z.div_mod_to_equations; lia).
    rewrite (IntFacts.to_size_t_small (first + len / 2)) by lia.
    destruct (get_in_range vals (first + len / 2)) as [v Hv]; [lia|].
    rewrite Hv. cbn [bind].
    destruct (less T v key).
    + rewrite (IntFacts.to_size_t_small (len - len / 2)) by lia.
      rewrite !IntFacts.to_size_t_small by lia.
      destruct (IH (len - len / 2 - 1) (first + len / 2 + 1)) as (r & Hr & Hb);
        try lia.
      exists r. split; [assumption|lia].
    + destruct (IH (len / 2) first) as (r & Hr & Hb); try lia.
      exists r. split; [assumption|lia].
Qed.

(** [BinarySearch] on a range inside the array. *)
Lemma BinarySearch_range (T : Pod32) (vals : list Z) (left right key : Z) :
  Vec.size vals <= Int.max_size 4 ->
  0 <= left <= right -> right <= Vec.size vals ->
  exists r, BinarySearch T vals left right key = Ok r /\ left <= r <= right.
Proof.
  intros HN Hlr Hr. rewrite max_size_4 in HN. unfold BinarySearch.
  rewrite (IntFacts.to_ssize_t_small (right - left)) by lia.
  rewrite !IntFacts.to_size_t_small by lia.
  destruct (BinarySearch_while_bounds T vals key right 64 Hr ltac:(lia)
              (right - left) left) as (r & -> & Hb); try lia.
  cbn [bind]. exists r. rewrite IntFacts.to_ssize_t_small by lia.
  split; [reflexivity|lia].
Qed.

(** Property X13.  Called with [0 <= left <= right <= N], [BinarySearch]
    reads no element outside the array and returns an index between
    [left] and [right], whatever the elements and the key are (sorted or
    not, NaN or not). *)
Theorem BinarySearch_in_range (T : Pod32) (vals : list Z) (left right key : Z) :
  Vec.size vals <= Int.max_size 4 ->
  0 <= left <= right -> right <= Vec.size vals ->
  exists r, BinarySearch T vals left right key = Ok r /\ left <= r <= right.
Proof. apply BinarySearch_range. Qed.

Lemma BinarySearch_in_range_witness :
  exists r, BinarySearch T_int32 [8; -5; 2] 0 2 1 = Ok r /\ 0 <= r <= 2.
Proof.
  apply (BinarySearch_in_range T_int32 [8; -5; 2] 0 2 1).
  - vm_compute; discriminate.
  - lia.
  - vm_compute; discriminate.
Defined.

(** Property X14.  On a range partitioned by [_ < key] (as a sorted range
    is), the index [r] that [BinarySearch] returns is the partition point
    of [left .. right - 1]: the elements before [r] are less than the
    key, those from [r] to [right - 1] are not.  [Vals[right]] itself is
    never compared. *)
Theorem BinarySearch_partition_point (T : Pod32) (vals : list Z)
    (left right key : Z) :
  Vec.size vals <= Int.max_size 4 -> partitioned T vals key ->
  0 <= left <= right -> right <= Vec.size vals ->
  exists r, BinarySearch T vals left right key = Ok r /\
    left <= r <= right /\
    (forall k a, left <= k < r -> Vec.get vals k = Ok a -> less T a key = true) /\
    (forall k a, r <= k < right -> Vec.get vals k = Ok a -> less T a key = false).
Proof.
  intros HN Hp Hlr Hr. rewrite max_size_4 in HN.
  apply BinarySearch_spec; try assumption. lia.
Qed.

Lemma BinarySearch_partition_point_witness :
  let vals := [1; 3; 3; 5; 7; 9] in
  exists r, BinarySearch T_uint32 vals 1 5 4 = Ok r /\
    1 <= r <= 5 /\
    (forall k a, 1 <= k < r -> Vec.get vals k = Ok a -> less T_uint32 a 4 = true) /\
    (forall k a, r <= k < 5 -> Vec.get vals k = Ok a -> less T_uint32 a 4 = false).
Proof.
  apply (BinarySearch_partition_point T_uint32 [1; 3; 3; 5; 7; 9] 1 5 4).
  - vm_compute; discriminate.
  - apply sorted_partitioned; [reflexivity|repeat constructor|reflexivity].
  - lia.
  - vm_compute; discriminate.
Defined.

(** ** The three entry points *)

(** Property X15.  On every non-empty array, sorted or not, and for every
    key, [MyBinarySearch] reads no element outside the array and returns
    an index in [0, N-1]: in particular it never returns -1. *)
Theorem MyBinarySearch_any_array (T : Pod32) (s : SearchPod32) (key : Z) :
  1 <= Vec.size (Vals s) <= Int.max_size 4 ->
  exists r, MyBinarySearch T s key = Ok r /\
            0 <= r <= Vec.size (Vals s) - 1 /\ r <> not_found.
Proof.
  intros HN. pose proof max_size_4 as Hm. unfold MyBinarySearch.
  rewrite IntFacts.to_ssize_t_small by lia.
  destruct (BinarySearch_range T (Vals s) 0 (Vec.size (Vals s) - 1) key)
    as (r & -> & Hr); try lia.
  exists r. unfold not_found. split; [reflexivity|lia].
Qed.

Lemma MyBinarySearch_any_array_witness :
  let s := {| Lut := [0; 2; 0]; Vals := [8; -5; 2]; LutEnd := 1 |} in
  exists r, MyBinarySearch T_int32 s 100 = Ok r /\
            0 <= r <= Vec.size (Vals s) - 1 /\ r <> not_found.
Proof.
  apply (MyBinarySearch_any_array T_int32
           {| Lut := [0; 2; 0]; Vals := [8; -5; 2]; LutEnd := 1 |} 100).
  vm_compute. split; discriminate.
Defined.

(** [LutBinarySearch] returns nothing before its interval start. *)
Lemma LutBinarySearch_from_start T LUT_BITS vals s key :
  well_formed T vals -> in_domain T key = true ->
  construct T LUT_BITS vals = Ok s ->
  exists start,
    Vec.get (Lut s) (lutIndex T LUT_BITS key) = Ok start /\ 0 <= start /\
    ((exists r, LutBinarySearch T LUT_BITS s key = Ok r /\
                start <= r <= Vec.size vals /\ r <> not_found) \/
     LutBinarySearch T LUT_BITS s key = Fault OutOfBounds).
Proof.
  intros Hwf Hkey Hc.
  pose proof (construct_LUT_BITS _ _ _ _ Hc) as HB.
  pose proof (vals_size_bound T vals Hwf) as Hb.
  destruct (construct_inv T LUT_BITS vals s Hwf Hc) as [HV Hsz Hend Hen _ _ _].
  pose proof (lutIndex_range T LUT_BITS key ltac:(lia) Hkey) as Hr.
  destruct (get_in_range (Lut s) (lutIndex T LUT_BITS key)) as [start Hstart]; [lia|].
  pose proof (Hen _ _ Hstart) as Hs.
  exists start. split; [assumption|]. split; [lia|].
  unfold LutBinarySearch. fold (lutIndex T LUT_BITS key). rewrite Hstart. cbn [bind].
  destruct (LutIntervalEnd_cases T LUT_BITS vals s key Hwf Hkey Hc) as (e & -> & _).
  cbn [bind]. rewrite HV.
  destruct (BinarySearch_total T vals (Int.to_ssize_t start) (Int.to_ssize_t e) key)
    as [[r Hr']| ->]; [|right; reflexivity].
  left. exists r. split; [assumption|].
  rewrite (IntFacts.to_ssize_t_small start) in Hr' by lia.
  apply BinarySearch_ge in Hr'; [|lia|lia]. unfold not_found. lia.
Qed.

(** Property X16.  Whatever the array and the key, [LutBinarySearch] on a
    constructed index either reads outside the array, or returns an
    index that is at least the interval start [Lut[lutIdx] >= 0] and at
    most [N]: it never returns -1. *)
Theorem LutBinarySearch_outcome (T : Pod32) (LUT_BITS : Z) (vals : list Z)
    (s : SearchPod32) (key : Z) :
  well_formed T vals -> in_domain T key = true ->
  construct T LUT_BITS vals = Ok s ->
  exists start,
    Vec.get (Lut s) (lutIndex T LUT_BITS key) = Ok start /\ 0 <= start /\
    ((exists r, LutBinarySearch T LUT_BITS s key = Ok r /\
                start <= r <= Vec.size vals /\ r <> not_found) \/
     LutBinarySearch T LUT_BITS s key = Fault OutOfBounds).
Proof. apply LutBinarySearch_from_start. Qed.

Lemma LutBinarySearch_outcome_witness :
  let vals := [-2000000000; 1; 1500000000] in
  let s := {| Lut := [0; 1; 1; 2; 0]; Vals := vals; LutEnd := 3 |} in
  exists start,
    Vec.get (Lut s) (lutIndex T_int32 2 (-5)) = Ok start /\ 0 <= start /\
    ((exists r, LutBinarySearch T_int32 2 s (-5) = Ok r /\
                start <= r <= Vec.size vals /\ r <> not_found) \/
     LutBinarySearch T_int32 2 s (-5) = Fault OutOfBounds).
Proof.
  apply (LutBinarySearch_outcome T_int32 2 [-2000000000; 1; 1500000000]).
  - split; [repeat constructor|vm_compute; discriminate].
  - reflexivity.
  - reflexivity.
Defined.

(** Property X17.  On a non-empty sorted array without NaN,
    [MyBinarySearch] returns the lower bound of the key (the number of
    elements less than it) capped at the last index:
    [min (lower_bound key, N - 1)]. *)
Theorem MyBinarySearch_is_lower_bound (T : Pod32) (s : SearchPod32) (key : Z) :
  well_formed T (Vals s) -> all_comparable T (Vals s) -> sorted T (Vals s) ->
  comparable T key = true -> 1 <= Vec.size (Vals s) ->
  MyBinarySearch T s key =
    Ok (Z.min (Z.of_nat (lower_bound T (Vals s) key)) (Vec.size (Vals s) - 1)).
Proof. intros. now apply MyBinarySearch_lower_bound. Qed.

Lemma MyBinarySearch_is_lower_bound_witness :
  let s := {| Lut := [0; 0; 0; 0; 0]; Vals := [1; 3; 3; 5; 7; 9]; LutEnd := 0 |} in
  MyBinarySearch T_uint32 s 10 =
    Ok (Z.min (Z.of_nat (lower_bound T_uint32 (Vals s) 10)) (Vec.size (Vals s) - 1)).
Proof.
  apply (MyBinarySearch_is_lower_bound T_uint32
           {| Lut := [0; 0; 0; 0; 0]; Vals := [1; 3; 3; 5; 7; 9]; LutEnd := 0 |} 10).
  - split; [repeat constructor|vm_compute; discriminate].
  - repeat constructor.
  - reflexivity.
  - reflexivity.
  - vm_compute; discriminate.
Defined.

(** Property X18.  On a sorted array without NaN, for a key that occurs
    at some index [p], [StdBinarySearch] and [MyBinarySearch] return the
    same index [i <= p]; [Vals[i]] equals the key and no element before
    [i] does: the lowest index of the key. *)
Theorem plain_searches_lowest_index (T : Pod32) (s : SearchPod32) (key p v : Z) :
  well_formed T (Vals s) -> all_comparable T (Vals s) -> sorted T (Vals s) ->
  comparable T key = true ->
  Vec.get (Vals s) p = Ok v -> equal_to T v key = true ->
  exists i w,
    StdBinarySearch T s key = Ok i /\ MyBinarySearch T s key = Ok i /\
    0 <= i <= p /\ Vec.get (Vals s) i = Ok w /\ equal_to T w key = true /\
    forall k a, 0 <= k < i -> Vec.get (Vals s) k = Ok a -> equal_to T a key = false.
Proof.
  intros Hwf Hc Hs Hk Hp Hv.
  destruct (plain_searches_present T s key Hwf Hc Hs Hk p v Hp Hv)
    as (i & w & Hstd & Hmy & Hi & Hw & Hwk).
  exists i, w. repeat split; try assumption; try lia.
  intros k a Hka Ha.
  apply (lower_bound_lowest T s key Hc Hk k a); [|assumption].
  unfold StdBinarySearch in Hstd.
  destruct (Vals s !! lower_bound T (Vals s) key); [destruct (equal_to T z key)|];
    injection Hstd as <-; lia.
Qed.

Lemma plain_searches_lowest_index_witness :
  let s := {| Lut := [0; 0; 0; 0; 0]; Vals := [1; 3; 3; 5; 7; 9]; LutEnd := 0 |} in
  exists i w,
    StdBinarySearch T_uint32 s 3 = Ok i /\ MyBinarySearch T_uint32 s 3 = Ok i /\
    0 <= i <= 2 /\ Vec.get (Vals s) i = Ok w /\ equal_to T_uint32 w 3 = true /\
    forall k a, 0 <= k < i -> Vec.get (Vals s) k = Ok a ->
                equal_to T_uint32 a 3 = false.
Proof.
  apply (plain_searches_lowest_index T_uint32
           {| Lut := [0; 0; 0; 0; 0]; Vals := [1; 3; 3; 5; 7; 9]; LutEnd := 0 |}
           3 2 3).
  - split; [repeat constructor|vm_compute; discriminate].
  - repeat constructor.
  - reflexivity.
  - reflexivity.
  - reflexivity.
  - reflexivity.
Defined.




(** Property X21.  On a sorted array of at least two elements without NaN
    and negative zero, the key [Vals[0]] is not found at index 0 by
    [LutBinarySearch] as soon as it is not in bucket 0, although
    [MyBinarySearch] and [StdBinarySearch] return 0. *)
Theorem LutBinarySearch_misses_index_0 (T : Pod32) (LUT_BITS : Z)
    (vals : list Z) (s : SearchPod32) (key : Z) :
  well_formed T vals -> all_canonical T vals -> sorted T vals ->
  construct T LUT_BITS vals = Ok s ->
  Vec.get vals 0 = Ok key -> 2 <= Vec.size vals ->
  lutIndex T LUT_BITS key <> 0 ->
  LutBinarySearch T LUT_BITS s key <> Ok 0 /\
  MyBinarySearch T s key = Ok 0 /\
  StdBinarySearch T s key = Ok 0.
Proof.
  intros Hwf Hcan Hsorted Hc Hp HN Hb.
  assert (Hkey : canonical T key = true).
  { apply get_Ok in Hp as [_ Hp]. unfold all_canonical in Hcan.
    rewrite Forall_lookup in Hcan. eauto. }
  split; [now apply (LutBinarySearch_first_missed T LUT_BITS vals)|].
  destruct (construct_inv T LUT_BITS vals s Hwf Hc) as [HV _ _ _ _ _ _].
  pose proof (all_canonical_comparable _ _ Hcan) as Hcmp.
  pose proof (canonical_comparable _ _ Hkey) as Hkc.
  rewrite <- HV in Hwf, Hcmp, Hsorted, Hp.
  assert (Heq : equal_to T key key = true)
    by (rewrite equal_to_rank by assumption; apply Z.eqb_refl).
  destruct (plain_searches_present T s key Hwf Hcmp Hsorted Hkc 0 key Hp Heq)
    as (i & w & Hstd & Hmy & Hi & _).
  assert (i = 0) as -> by lia. auto.
Qed.

Lemma LutBinarySearch_misses_index_0_witness :
  let s := {| Lut := [0; 1; 2; 2; 0]; Vals := [-5; -1; 0; 2; 8]; LutEnd := 2 |} in
  LutBinarySearch T_int32 2 s (-5) <> Ok 0 /\
  MyBinarySearch T_int32 s (-5) = Ok 0 /\
  StdBinarySearch T_int32 s (-5) = Ok 0.
Proof.
  apply (LutBinarySearch_misses_index_0 T_int32 2 [-5; -1; 0; 2; 8]).
  - split; [repeat constructor|vm_compute; discriminate].
  - repeat constructor.
  - reflexivity.
  - reflexivity.
  - reflexivity.
  - vm_compute; discriminate.
  - vm_compute; discriminate.
Defined.

(** Property X22.  On the empty array, for every element type, every
    [LUT_BITS] and every key: [StdBinarySearch] returns -1, whereas
    [MyBinarySearch] and [LutBinarySearch] read out of bounds
    ([__len = right - left] with [right = -1] wraps). *)
Theorem searches_on_empty_array (T : Pod32) (LUT_BITS : Z) (s : SearchPod32)
    (key : Z) :
  in_domain T key = true -> construct T LUT_BITS [] = Ok s ->
  StdBinarySearch T s key = Ok not_found /\
  MyBinarySearch T s key = Fault OutOfBounds /\
  LutBinarySearch T LUT_BITS s key = Fault OutOfBounds.
Proof.
  intros Hkey Hc.
  assert (Hwf : well_formed T []) by (split; [constructor|vm_compute; discriminate]).
  pose proof (construct_LUT_BITS _ _ _ _ Hc) as HB.
  destruct (construct_inv T LUT_BITS [] s Hwf Hc) as [HV Hsz _ _ _ _ _].
  destruct (Lut_short_array_zero T LUT_BITS [] s Hwf ltac:(vm_compute; discriminate) Hc)
    as [Hend Hzero].
  unfold StdBinarySearch, MyBinarySearch, LutBinarySearch. rewrite HV.
  split; [reflexivity|]. split; [reflexivity|].
  pose proof (lutIndex_range T LUT_BITS key ltac:(lia) Hkey) as Hr.
  fold (lutIndex T LUT_BITS key).
  destruct (get_in_range (Lut s) (lutIndex T LUT_BITS key)) as [start Hstart]; [lia|].
  rewrite Hstart. cbn [bind].
  assert (start = 0) as ->.
  { apply get_Ok in Hstart as [_ Hstart]. rewrite Forall_lookup in Hzero. eauto. }
  unfold LutIntervalEnd. rewrite Hend, HV.
  pose proof (IntFacts.to_uint32_range (lutIndex T LUT_BITS key + 1)).
  rewrite Z.geb_leb.
  destruct (Z.leb_spec 0 (Int.to_uint32 (lutIndex T LUT_BITS key + 1))); [|lia].
  reflexivity.
Qed.

Lemma searches_on_empty_array_witness :
  let s := {| Lut := [0; 0; 0; 0; 0]; Vals := []; LutEnd := 0 |} in
  StdBinarySearch T_float s 0x3FA00000 = Ok not_found /\
  MyBinarySearch T_float s 0x3FA00000 = Fault OutOfBounds /\
  LutBinarySearch T_float 2 s 0x3FA00000 = Fault OutOfBounds.
Proof.
  apply (searches_on_empty_array T_float 2); reflexivity.
Defined.

(** Property X23.  On an array of one element, [MyBinarySearch] and
    [LutBinarySearch] return 0 for every key, whether the element is the
    key or not. *)
Theorem searches_on_singleton (T : Pod32) (LUT_BITS : Z) (s : SearchPod32)
    (v key : Z) :
  in_domain T v = true -> in_domain T key = true ->
  construct T LUT_BITS [v] = Ok s ->
  MyBinarySearch T s key = Ok 0 /\ LutBinarySearch T LUT_BITS s key = Ok 0.
Proof.
  intros Hv Hkey Hc.
  assert (Hwf : well_formed T [v])
    by (split; [repeat constructor; assumption|vm_compute; discriminate]).
  pose proof (construct_LUT_BITS _ _ _ _ Hc) as HB.
  destruct (construct_inv T LUT_BITS [v] s Hwf Hc) as [HV Hsz _ _ _ _ _].
  destruct (Lut_short_array_zero T LUT_BITS [v] s Hwf ltac:(vm_compute; discriminate) Hc)
    as [Hend Hzero].
  unfold MyBinarySearch, LutBinarySearch. rewrite HV.
  split; [reflexivity|].
  pose proof (lutIndex_range T LUT_BITS key ltac:(lia) Hkey) as Hr.
  fold (lutIndex T LUT_BITS key).
  destruct (get_in_range (Lut s) (lutIndex T LUT_BITS key)) as [start Hstart]; [lia|].
  rewrite Hstart. cbn [bind].
  assert (start = 0) as ->.
  { apply get_Ok in Hstart as [_ Hstart]. rewrite Forall_lookup in Hzero. eauto. }
  unfold LutIntervalEnd. rewrite Hend, HV.
  pose proof (IntFacts.to_uint32_range (lutIndex T LUT_BITS key + 1)).
  rewrite Z.geb_leb.
  destruct (Z.leb_spec 0 (Int.to_uint32 (lutIndex T LUT_BITS key + 1))); [|lia].
  reflexivity.
Qed.

Lemma searches_on_singleton_witness :
  let s := {| Lut := [0; 0; 0]; Vals := [7]; LutEnd := 0 |} in
  MyBinarySearch T_uint32 s 0x90000000 = Ok 0 /\
  LutBinarySearch T_uint32 1 s 0x90000000 = Ok 0.
Proof.
  apply (searches_on_singleton T_uint32 1
           {| Lut := [0; 0; 0]; Vals := [7]; LutEnd := 0 |} 7 0x90000000);
    reflexivity.
Defined.

(** ** The driver *)

Lemma BenchmarkAlgo_for_fails NDEBUG T algoFunc vals s keys :
  Exists (fun key => forall idx u, algoFunc s key = Ok idx ->
                       assert_found NDEBUG T vals idx key <> Result u) keys ->
  forall res r, BenchmarkAlgo_for NDEBUG T algoFunc vals s keys res <> Result r.
Proof.
  induction 1 as [key keys Hbad|key keys _ IH]; intros res r; cbn [BenchmarkAlgo_for].
  - destruct (algoFunc s key) as [idx|f] eqn:E; [|discriminate].
    destruct (assert_found NDEBUG T vals idx key) as [u| |f] eqn:Ea;
      try discriminate.
    exfalso. exact (Hbad idx u eq_refl Ea).
  - destruct (algoFunc s key) as [idx|f]; [|discriminate].
    destruct (assert_found NDEBUG T vals idx key); try discriminate. apply IH.
Qed.

Lemma BenchmarkAlgo_for_lower_bounds NDEBUG T algoFunc vals s keys :
  Vec.size vals < 2 ^ 61 ->
  Forall (fun key =>
            algoFunc s key = Ok (Z.of_nat (lower_bound T vals key)) /\
            assert_found NDEBUG T vals (Z.of_nat (lower_bound T vals key)) key
              = Result tt) keys ->
  forall res,
    BenchmarkAlgo_for NDEBUG T algoFunc vals s keys res
    = Result (lower_bound_sum T vals keys res).
Proof.
  intros HN. induction 1 as [|key keys [Hk Ha] _ IH]; intros res; [reflexivity|].
  cbn [BenchmarkAlgo_for lower_bound_sum]. rewrite Hk, Ha.
  pose proof (lower_bound_le T vals key). unfold Vec.size in HN.
  rewrite (IntFacts.to_size_t_small (Z.of_nat (lower_bound T vals key))) by lia.
  apply IH.
Qed.

(** A key that occurs in a sorted array: what the two plain searches and
    the assertion of the driver do with it. *)
Lemma present_key_step NDEBUG T s key :
  well_formed T (Vals s) -> all_comparable T (Vals s) -> sorted T (Vals s) ->
  comparable T key = true -> occurs T (Vals s) key = true ->
  let i := Z.of_nat (lower_bound T (Vals s) key) in
  StdBinarySearch T s key = Ok i /\ MyBinarySearch T s key = Ok i /\
  assert_found NDEBUG T (Vals s) i key = Result tt /\
  exists w, Vec.get (Vals s) i = Ok w /\ equal_to T w key = true.
Proof.
  intros Hwf Hc Hs Hk Hocc i.
  unfold occurs in Hocc. apply existsb_exists in Hocc as (v & Hin & Hv).
  apply list_elem_of_In, list_elem_of_lookup_1 in Hin as [n Hn].
  assert (Hp : Vec.get (Vals s) (Z.of_nat n) = Ok v).
  { apply get_Ok. rewrite Nat2Z.id. split; [|assumption].
    apply lookup_lt_Some in Hn. unfold Vec.size. lia. }
  destruct (plain_searches_present T s key Hwf Hc Hs Hk _ v Hp Hv)
    as (j & w & Hstd & Hmy & Hj & Hw & Hwk).
  assert (j = i) as ->.
  { unfold StdBinarySearch in Hstd. fold i in Hstd.
    destruct (Vals s !! lower_bound T (Vals s) key);
      [destruct (equal_to T z key)|]; injection Hstd as <-; lia. }
  repeat split; try assumption; [|eauto].
  unfold assert_found. destruct NDEBUG; [reflexivity|].
  pose proof (vals_size_bound T _ Hwf). pose proof (get_bounds _ _ _ Hw).
  rewrite IntFacts.to_size_t_small by lia. now rewrite Hw, Hwk.
Qed.

(** Property X24.  When every key occurs in the sorted array (as the keys
    that [Benchmark] draws from the values do), [BenchmarkAlgo] over
    [MyBinarySearch] and over [StdBinarySearch] passes every assertion and
    ends with the same [Result]: the sum, in a [size_t], of the lower
    bounds of the keys.  It does so with and without [NDEBUG]. *)
Theorem BenchmarkAlgo_plain (NDEBUG : bool) (T : Pod32) (s : SearchPod32)
    (keys : list Z) :
  well_formed T (Vals s) -> all_comparable T (Vals s) -> sorted T (Vals s) ->
  Forall (fun key => comparable T key = true /\
                     occurs T (Vals s) key = true) keys ->
  BenchmarkAlgo NDEBUG T (Vals s) keys (MyBinarySearch T) s
    = Result (lower_bound_sum T (Vals s) keys 0) /\
  BenchmarkAlgo NDEBUG T (Vals s) keys (StdBinarySearch T) s
    = Result (lower_bound_sum T (Vals s) keys 0).
Proof.
  intros Hwf Hc Hs Hkeys. pose proof (vals_size_bound T _ Hwf) as Hb.
  unfold BenchmarkAlgo.
  split; apply BenchmarkAlgo_for_lower_bounds; try lia;
    (eapply Forall_impl; [exact Hkeys|]); intros key [Hk Hocc];
    destruct (present_key_step NDEBUG T s key Hwf Hc Hs Hk Hocc)
      as (Hstd & Hmy & Ha & _); auto.
Qed.

Lemma BenchmarkAlgo_plain_witness :
  let s := {| Lut := [0; 0; 0; 0; 0]; Vals := [1; 3; 3; 5; 7; 9]; LutEnd := 0 |} in
  BenchmarkAlgo false T_uint32 (Vals s) [9; 3; 1; 3] (MyBinarySearch T_uint32) s
    = Result (lower_bound_sum T_uint32 (Vals s) [9; 3; 1; 3] 0) /\
  BenchmarkAlgo false T_uint32 (Vals s) [9; 3; 1; 3] (StdBinarySearch T_uint32) s
    = Result (lower_bound_sum T_uint32 (Vals s) [9; 3; 1; 3] 0).
Proof.
  apply (BenchmarkAlgo_plain false T_uint32
           {| Lut := [0; 0; 0; 0; 0]; Vals := [1; 3; 3; 5; 7; 9]; LutEnd := 0 |}
           [9; 3; 1; 3]).
  - split; [repeat constructor|vm_compute; discriminate].
  - repeat constructor.
  - reflexivity.
  - repeat constructor.
Defined.

(** Property X25.  With assertions enabled, [BenchmarkAlgo] over
    [StdBinarySearch] does not end with a [Result] if some key does not
    occur in the array: the -1 that is returned is used as an index. *)
Theorem BenchmarkAlgo_Std_absent_key (T : Pod32) (s : SearchPod32)
    (keys : list Z) (r : Z) :
  Vec.size (Vals s) <= Int.max_size 4 ->
  Exists (fun key => occurs T (Vals s) key = false) keys ->
  BenchmarkAlgo false T (Vals s) keys (StdBinarySearch T) s <> Result r.
Proof.
  intros HN Habs. rewrite max_size_4 in HN. unfold BenchmarkAlgo.
  apply BenchmarkAlgo_for_fails.
  eapply Exists_impl; [exact Habs|]. intros key Hocc idx u Hidx.
  assert (Hstd : StdBinarySearch T s key = Ok not_found).
  { unfold occurs in Hocc. unfold StdBinarySearch.
    destruct (Vals s !! lower_bound T (Vals s) key) as [v|] eqn:E; [|reflexivity].
    destruct (equal_to T v key) eqn:Heq; [|reflexivity].
    assert (existsb (fun v => equal_to T v key) (Vals s) = true); [|congruence].
    apply existsb_exists. exists v. split; [|assumption].
    apply list_elem_of_In. eapply list_elem_of_lookup_2; eauto. }
  rewrite Hstd in Hidx. injection Hidx as <-.
  unfold assert_found, not_found.
  change (Int.to_size_t (-1)) with (2 ^ 64 - 1).
  rewrite get_out_of_range; [discriminate|]. unfold Vec.size in *. lia.
Qed.

Lemma BenchmarkAlgo_Std_absent_key_witness :
  let s := {| Lut := [0; 0; 0; 0; 0]; Vals := [1; 3; 3; 5; 7; 9]; LutEnd := 0 |} in
  BenchmarkAlgo false T_uint32 (Vals s) [9; 4; 1] (StdBinarySearch T_uint32) s
  <> Result 5.
Proof.
  apply (BenchmarkAlgo_Std_absent_key T_uint32
           {| Lut := [0; 0; 0; 0; 0]; Vals := [1; 3; 3; 5; 7; 9]; LutEnd := 0 |}
           [9; 4; 1] 5).
  - vm_compute; discriminate.
  - apply Exists_cons_tl, Exists_cons_hd. reflexivity.
Defined.





(** Property X27.  With assertions enabled, on a sorted array without NaN
    and negative zero whose first element is not in bucket 0 and differs
    from the second, [BenchmarkAlgo] over [LutBinarySearch] does not end
    with a [Result] as soon as [Vals[0]] is among the keys: the assertion
    [vals[idx] == keys[i]] fails, or [idx] is out of bounds. *)
Theorem BenchmarkAlgo_Lut_first_key (T : Pod32) (LUT_BITS : Z)
    (vals keys : list Z) (s : SearchPod32) (v0 v1 r : Z) :
  well_formed T vals -> all_canonical T vals -> sorted T vals ->
  construct T LUT_BITS vals = Ok s ->
  Vec.get vals 0 = Ok v0 -> Vec.get vals 1 = Ok v1 ->
  equal_to T v1 v0 = false -> lutIndex T LUT_BITS v0 <> 0 ->
  In v0 keys ->
  BenchmarkAlgo false T vals keys (LutBinarySearch T LUT_BITS) s <> Result r.
Proof.
  intros Hwf Hcan Hsorted Hc H0 H1 Hne Hbk Hin.
  pose proof (vals_size_bound T vals Hwf) as Hb.
  pose proof (all_canonical_comparable _ _ Hcan) as Hcmp.
  pose proof (get_bounds _ _ _ H1) as HN.
  assert (Hk0 : canonical T v0 = true).
  { apply get_Ok in H0 as [_ H0]. unfold all_canonical in Hcan.
    rewrite Forall_lookup in Hcan. eauto. }
  unfold BenchmarkAlgo. apply BenchmarkAlgo_for_fails.
  apply Exists_exists. exists v0. split; [now apply list_elem_of_In|].
  intros idx u Hidx.
  pose proof (LutBinarySearch_first_missed T LUT_BITS vals s v0 Hwf Hcan Hsorted
                Hk0 Hc H0 ltac:(lia) Hbk) as Hmiss.
  destruct (LutBinarySearch_from_start T LUT_BITS vals s v0 Hwf
              (canonical_in_domain _ _ Hk0) Hc)
    as (start & _ & Hs & [(r' & Hr' & Hrange & _)|Hf]); [|congruence].
  assert (r' = idx) as -> by congruence.
  assert (Hidx1 : 1 <= idx) by (destruct (Z.eq_dec idx 0); [congruence|lia]).
  unfold assert_found. rewrite IntFacts.to_size_t_small by lia.
  destruct (Vec.get vals idx) as [w|f] eqn:Ew; [|discriminate].
  assert (equal_to T w v0 = false) as ->; [|discriminate].
  pose proof (sorted_rank T vals 0 1 v0 v1 Hsorted Hcmp ltac:(lia) H0 H1).
  pose proof (sorted_rank T vals 1 idx v1 w Hsorted Hcmp ltac:(lia) H1 Ew).
  rewrite equal_to_rank in Hne |- * by eauto using get_comparable. lia.
Qed.

Lemma BenchmarkAlgo_Lut_first_key_witness :
  BenchmarkAlgo false T_int32 [-5; -1; 0; 2; 8] [2; -5; 8]
    (LutBinarySearch T_int32 2)
    {| Lut := [0; 1; 2; 2; 0]; Vals := [-5; -1; 0; 2; 8]; LutEnd := 2 |}
  <> Result 7.
Proof.
  apply (BenchmarkAlgo_Lut_first_key T_int32 2 [-5; -1; 0; 2; 8] [2; -5; 8]
           {| Lut := [0; 1; 2; 2; 0]; Vals := [-5; -1; 0; 2; 8]; LutEnd := 2 |}
           (-5) (-1) 7).
  - split; [repeat constructor|vm_compute; discriminate].
  - repeat constructor.
  - reflexivity.
  - reflexivity.
  - reflexivity.
  - reflexivity.
  - reflexivity.
  - vm_compute; discriminate.
  - cbn. tauto.
Defined.

(** ** The interval starts *)

(** Property X28.  In every constructed index, whatever the order of the
    array, the entries [Lut[1] .. Lut[LutEnd]] are at least 1 and at most
    [N - 1]: the interval end [Lut[lutIdx + 1] - 1] of [LutBinarySearch]
    never wraps below 0. *)
Theorem Lut_entries_positive (T : Pod32) (LUT_BITS : Z) (vals : list Z)
    (s : SearchPod32) (j : Z) :
  well_formed T vals -> construct T LUT_BITS vals = Ok s ->
  1 <= j <= LutEnd s ->
  exists x, Vec.get (Lut s) j = Ok x /\ 1 <= x <= Vec.size vals - 1.
Proof.
  intros Hwf Hc Hj.
  destruct (construct_inv T LUT_BITS vals s Hwf Hc) as [_ Hsz Hend Hen _ Hpo _].
  destruct (get_in_range (Lut s) j) as [x Hx]; [lia|].
  exists x. split; [assumption|].
  pose proof (Hen _ _ Hx). pose proof (Hpo _ _ Hj Hx). lia.
Qed.

Lemma Lut_entries_positive_witness :
  let s := {| Lut := [0; 2; 0]; Vals := [8; -5; 2]; LutEnd := 1 |} in
  exists x, Vec.get (Lut s) 1 = Ok x /\ 1 <= x <= Vec.size [8; -5; 2] - 1.
Proof.
  apply (Lut_entries_positive T_int32 1 [8; -5; 2]).
  - split; [repeat constructor|vm_compute; discriminate].
  - reflexivity.
  - cbn. lia.
Defined.
